(** * BB84 key distribution simulator (bb88.py): model and properties

    The program prepares one single-qubit circuit per position, lets an
    optional eavesdropper measure and re-prepare each of them, lets Bob
    measure what arrives, sifts the positions whose bases agree, discloses
    half of the sifted positions and derives an eavesdropping ratio.

    Bits, bases and the sentinel [-1] are integers, as in the source.  All
    randomness (numpy's generator and the simulator's shots) is read from
    one explicit tape of integers; a computation carries the position of the
    next unread cell and may raise one of Python's exceptions. *)

From Stdlib Require Import ZArith QArith String Ascii.
From stdpp Require Import base tactics option list strings.

Set Default Proof Using "Type".

(** ** Exceptions, the random tape and the computation monad *)

Inductive exn : Type := ValueError | IndexError | ZeroDivisionError.

Inductive result (A : Type) : Type :=
  | Ok (a : A)
  | Err (e : exn).
Arguments Ok {A} a.
Arguments Err {A} e.

Definition rbind {A B : Type} (r : result A) (k : A → result B) : result B :=
  match r with
  | Ok a => k a
  | Err e => Err e
  end.

Definition tape : Type := nat → Z.

Definition M (A : Type) : Type := tape → nat → result (A * nat).

Definition ret {A : Type} (a : A) : M A := λ _ p, Ok (a, p).

Definition bind {A B : Type} (m : M A) (k : A → M B) : M B :=
  λ t p, match m t p with
         | Ok (a, p') => k a t p'
         | Err e => Err e
         end.

Definition raise {A : Type} (e : exn) : M A := λ _ _, Err e.

Definition lift {A : Type} (r : result A) : M A :=
  λ _ p, match r with
         | Ok a => Ok (a, p)
         | Err e => Err e
         end.

Definition draw : M Z := λ t p, Ok (t p, S p).

Notation "x <- m ;; k" := (bind m (λ x, k))
  (at level 100, m at next level, right associativity).

Fixpoint draws (n : nat) : M (list Z) :=
  match n with
  | O => ret []
  | S n' => r <- draw ;; rs <- draws n' ;; ret (r :: rs)
  end.

(** [for i, a in enumerate(l)] collecting one result per element. *)
Fixpoint for_enumerate {A B : Type} (f : nat → A → M B) (i : nat) (l : list A)
  : M (list B) :=
  match l with
  | [] => ret []
  | a :: l' => b <- f i a ;; bs <- for_enumerate f (S i) l' ;; ret (b :: bs)
  end.

(** [l[i]] on a Python list or a numpy array, for a non-negative [i]. *)
Definition index {A : Type} (l : list A) (i : nat) : result A :=
  match l !! i with
  | Some a => Ok a
  | None => Err IndexError
  end.

(** ** numpy *)

(** [np.random.randint(high, size=size)]: a negative size is rejected. *)
Definition np_random_randint (high : Z) (size : Z) : M (list Z) :=
  if (size <? 0)%Z then raise ValueError
  else rs <- draws (Z.to_nat size) ;; ret (map (λ r, r `mod` high)%Z rs).

(** A permutation of [a] by repeatedly picking one of the remaining
    elements; one cell of the tape per element. *)
Fixpoint permute {A : Type} (n : nat) (a : list A) (t : tape) (p : nat) : list A :=
  match n with
  | O => []
  | S n' =>
      let j := Z.to_nat (t p `mod` Z.of_nat (length a))%Z in
      match a !! j with
      | Some x => x :: permute n' (delete j a) t (S p)
      | None => []
      end
  end.

Definition np_random_permutation {A : Type} (a : list A) : M (list A) :=
  λ t p, Ok (permute (length a) a t p, p + length a).

(** [np.random.choice(a, size, replace=False)]: the first [size] elements of
    a permutation of [a]; asking for more than the population raises. *)
Definition np_random_choice {A : Type} (a : list A) (size : nat) : M (list A) :=
  if length a <? size then raise ValueError
  else perm <- np_random_permutation a ;; ret (take size perm).

(** [np.where(mask)[0]]: the indices of the true entries, ascending. *)
Fixpoint np_where (i : nat) (mask : list bool) : list nat :=
  match mask with
  | [] => []
  | true :: mask' => i :: np_where (S i) mask'
  | false :: mask' => np_where (S i) mask'
  end.

(** [a[indices]] with an index array. *)
Fixpoint np_take {A : Type} (a : list A) (indices : list nat) : result (list A) :=
  match indices with
  | [] => Ok []
  | i :: indices' =>
      rbind (index a i) (λ x,
      rbind (np_take a indices') (λ xs, Ok (x :: xs)))
  end.

(** [a == b] on two arrays of one shape; other shapes are rejected. *)
Definition np_eq (a b : list Z) : result (list bool) :=
  if length a =? length b then Ok (zip_with Z.eqb a b) else Err ValueError.

(** ** The circuit simulator

    A circuit on one qubit and one classical bit is the list of its
    operations.  The gates of this program keep the qubit in one of the four
    states |0>, |1>, |+>, |-> (up to a global phase), so the simulator is
    modelled exactly on these: X swaps |0> and |1>, H swaps the two bases,
    and measuring |0> or |1> is certain while measuring |+> or |-> reads
    one cell of the tape. *)

Inductive gate : Type := X | H | Measure.

Abbreviation QuantumCircuit := (list gate).

Inductive ket : Type := Ket0 | Ket1 | KetPlus | KetMinus.

Definition apply_x (k : ket) : ket :=
  match k with
  | Ket0 => Ket1
  | Ket1 => Ket0
  | KetPlus => KetPlus
  | KetMinus => KetMinus
  end.

Definition apply_h (k : ket) : ket :=
  match k with
  | Ket0 => KetPlus
  | Ket1 => KetMinus
  | KetPlus => Ket0
  | KetMinus => Ket1
  end.

Definition project (k : ket) (r : Z) : Z :=
  match k with
  | Ket0 => 0
  | Ket1 => 1
  | KetPlus | KetMinus => r `mod` 2
  end.

Definition ket_of_bit (b : Z) : ket := if (b =? 0)%Z then Ket0 else Ket1.

(** One shot: the final value of the classical bit. *)
Fixpoint run_shot (qc : QuantumCircuit) (k : ket) (creg : Z) (r : Z) : Z :=
  match qc with
  | [] => creg
  | X :: qc' => run_shot qc' (apply_x k) creg r
  | H :: qc' => run_shot qc' (apply_h k) creg r
  | Measure :: qc' =>
      let b := project k r in run_shot qc' (ket_of_bit b) b r
  end.

Definition Counts : Type := list (string * nat).

(** [result.get_counts()]: the outcomes that occurred, with their number of
    occurrences.  The dictionary is listed with key "0" first; the order
    only matters to [max] when both outcomes occur equally often. *)
Definition get_counts (outcomes : list Z) : Counts :=
  filter (λ kv, kv.2 ≠ 0)
    [("0"%string, length (filter (λ b, b = 0%Z) outcomes));
     ("1"%string, length (filter (λ b, b = 1%Z) outcomes))].

(** The simulator's default number of shots. *)
Definition shots : nat := 1024.

(** [simulator.run(transpile(qc, simulator)).result()]: transpiling keeps
    the meaning of the circuit; every shot reads one cell of the tape. *)
Definition simulator_run (qc : QuantumCircuit) : M Counts :=
  rs <- draws shots ;; ret (get_counts (map (run_shot qc Ket0 0%Z) rs)).

(** [max(counts, key=counts.get)]: the first key of greatest count. *)
Fixpoint max_from (best : string * nat) (c : Counts) : string :=
  match c with
  | [] => best.1
  | kv :: c' => if best.2 <? kv.2 then max_from kv c' else max_from best c'
  end.

Definition py_max_key (c : Counts) : result string :=
  match c with
  | [] => Err ValueError
  | kv :: c' => Ok (max_from kv c')
  end.

Definition py_int (s : string) : result Z :=
  if String.eqb s "0" then Ok 0%Z
  else if String.eqb s "1" then Ok 1%Z
  else Err ValueError.

(** The four lines shared by Eve and Bob: measure, run, take the most
    frequent outcome. *)
Definition measure_and_read (qc : QuantumCircuit) : M Z :=
  let qc := qc ++ [Measure] in
  counts <- simulator_run qc ;;
  key <- lift (py_max_key counts) ;;
  lift (py_int key).

(** ** The protocol steps of bb88.py *)

Notation "x <~ r ;; k" := (rbind r (λ x, k))
  (at level 100, r at next level, right associativity).

(** A comprehension or loop over a list whose body may raise. *)
Fixpoint rmapM {A B : Type} (f : A → result B) (l : list A) : result (list B) :=
  match l with
  | [] => Ok []
  | a :: l' => b <~ f a ;; bs <~ rmapM f l' ;; Ok (b :: bs)
  end.

(** [enumerate(l)] *)
Definition enumerate {A : Type} (l : list A) : list (nat * A) :=
  zip (seq 0 (length l)) l.

(** [l[i] = x] on a Python list. *)
Definition assign {A : Type} (l : list A) (i : nat) (x : A) : result (list A) :=
  if i <? length l then Ok (<[i:=x]> l) else Err IndexError.

Definition generate_alice_data (num_qubits : Z) : M (list Z * list Z) :=
  alice_bits <- np_random_randint 2 num_qubits ;;
  alice_bases <- np_random_randint 2 num_qubits ;;
  ret (alice_bits, alice_bases).

(** The circuit built for one position: [QuantumCircuit(1, 1)], an X when
    the bit is 1, an H when the basis is 1. *)
Definition prepare_one (bit basis : Z) : QuantumCircuit :=
  let qc : QuantumCircuit := [] in
  let qc := if (bit =? 1)%Z then qc ++ [X] else qc in
  let qc := if (basis =? 1)%Z then qc ++ [H] else qc in
  qc.

Definition eve_intercepts (circuits : list QuantumCircuit) (num_qubits : Z)
  : M (list Z * list QuantumCircuit) :=
  eve_bases <- np_random_randint 2 num_qubits ;;
  eve_tampered_circuits <-
    for_enumerate (λ i qc,
      eve_basis <- lift (index eve_bases i) ;;
      let qc_copy := qc in
      let qc_copy := if (eve_basis =? 1)%Z then qc_copy ++ [H] else qc_copy in
      measured_bit <- measure_and_read qc_copy ;;
      ret (prepare_one measured_bit eve_basis)) 0 circuits ;;
  ret (eve_bases, eve_tampered_circuits).

Definition bob_measures (circuits : list QuantumCircuit) (num_qubits : Z)
  : M (list Z * list Z) :=
  bob_bases <- np_random_randint 2 num_qubits ;;
  bob_bits <-
    for_enumerate (λ i qc,
      bob_basis <- lift (index bob_bases i) ;;
      let qc := if (bob_basis =? 1)%Z then qc ++ [H] else qc in
      measure_and_read qc) 0 circuits ;;
  ret (bob_bases, bob_bits).

Definition reconcile_bases (alice_bases bob_bases alice_bits bob_bits : list Z)
  : result (list Z * list Z) :=
  matching_bases <~ np_eq alice_bases bob_bases ;;
  let shared_key_indices := np_where 0 matching_bases in
  alice_shared_key <~ np_take alice_bits shared_key_indices ;;
  bob_shared_key <~ np_take bob_bits shared_key_indices ;;
  Ok (alice_shared_key, bob_shared_key).

Definition check_correct_bases (alice_bases bob_bases : list Z) : result (list bool) :=
  np_eq alice_bases bob_bases.

Definition format_correct_bases (correct_bases : list bool) : list ascii :=
  map (λ base : bool, if base then "K"%char else " "%char) correct_bases.

Definition create_correct_bits (bob_bits : list Z) (correct_bases : list bool) : list Z :=
  zip_with (λ (bit : Z) (correct : bool), if correct then bit else (-1)%Z)
           bob_bits correct_bases.

Definition valid_indices (correct_bits : list Z) : list nat :=
  (filter (λ ib, ib.2 ≠ (-1)%Z) (enumerate correct_bits)).*1.

Fixpoint store_selected (correct_bits : list Z) (selected_indices : list nat)
    (half_correct_bits : list Z) : result (list Z) :=
  match selected_indices with
  | [] => Ok half_correct_bits
  | i :: rest =>
      bit <~ index correct_bits i ;;
      half_correct_bits <~ assign half_correct_bits i bit ;;
      store_selected correct_bits rest half_correct_bits
  end.

Definition randomly_store_half (correct_bits : list Z) : M (list Z) :=
  let valid_indices := valid_indices correct_bits in
  selected_indices <- np_random_choice valid_indices (length valid_indices / 2) ;;
  let half_correct_bits := replicate (length correct_bits) (-1)%Z in
  lift (store_selected correct_bits selected_indices half_correct_bits).

Definition confirm_by_alice (alice_bits half_correct_bits : list Z) : result (list ascii) :=
  rmapM (λ ib : nat * Z,
    alice_bit <~ index alice_bits ib.1 ;;
    Ok (if (ib.2 =? alice_bit)%Z then "T"%char
        else if negb (ib.2 =? -1)%Z then "F"%char else " "%char))
    (enumerate half_correct_bits).

Definition create_outcome (correct_bits half_correct_bits : list Z) : result (list Z) :=
  rmapM (λ ib : nat * Z,
    half <~ index half_correct_bits ib.1 ;;
    Ok (if (half =? -1)%Z then ib.2 else (-1)%Z))
    (enumerate correct_bits).

(** [l.count(x)] *)
Definition py_count (x : ascii) (l : list ascii) : nat :=
  length (filter (λ y, y = x) l).

(** [ratio > 0] *)
Definition Qpositive (q : Q) : bool := negb (Qle_bool q 0).

Record Data : Type := {
  alice_bits : list Z;
  alice_bases : list Z;
  eve_bases : option (list Z);
  bob_bases : list Z;
  bob_bits : list Z;
  alice_shared_key : list Z;
  bob_shared_key : list Z;
  correct_bases : list ascii;
  correct_bits : list Z;
  half_correct_bits : list Z;
  confirmed_by_alice : list ascii;
  outcome : list Z;
  eavesdropping_ratio : Q
}.

Record Results : Type := {
  true_detected : nat;
  true_non_detected : nat;
  false_detected : nat;
  false_non_detected : nat
}.

(** [np.random.choice(a)]: one element of [a]. *)
Definition np_random_choice1 {A : Type} (a : list A) : M A :=
  r <- draw ;; lift (index a (Z.to_nat (r `mod` Z.of_nat (length a))%Z)).

Section Program.

(** The module-level constant [num_qubits] (32 in the source) that
    [prepare_qubits], [calculate_eavesdropping_ratio] and [collect_data]
    read. *)
Variable num_qubits : Z.

Definition prepare_qubits (alice_bits alice_bases : list Z)
  : result (list QuantumCircuit) :=
  rmapM (λ i,
    bit <~ index alice_bits i ;;
    basis <~ index alice_bases i ;;
    Ok (prepare_one bit basis))
    (seq 0 (Z.to_nat num_qubits)).

(** The quotient of two Python integers is a float; it is modelled by the
    exact rational.  For the source's [num_qubits = 32] and a count of at
    most 32 the float computation is exact as well. *)
Definition calculate_eavesdropping_ratio (confirmed_by_alice : list ascii)
  : result Q :=
  let total_intercepted := py_count "F"%char confirmed_by_alice in
  if (num_qubits =? 0)%Z then Err ZeroDivisionError
  else Ok ((inject_Z (Z.of_nat total_intercepted) / inject_Z num_qubits) * 100)%Q.

Definition collect_data (eavesdropping_enabled : bool) : M Data :=
  (* Step 1 *)
  alice <- generate_alice_data num_qubits ;;
  let alice_bits := alice.1 in
  let alice_bases := alice.2 in
  circuits <- lift (prepare_qubits alice_bits alice_bases) ;;
  eve <- (if eavesdropping_enabled
          then eve <- eve_intercepts circuits num_qubits ;;
               ret (Some eve.1, eve.2)
          else ret (None, circuits)) ;;
  let eve_bases := eve.1 in
  let circuits := eve.2 in
  (* Step 2 *)
  bob <- bob_measures circuits num_qubits ;;
  let bob_bases := bob.1 in
  let bob_bits := bob.2 in
  (* Step 3 *)
  keys <- lift (reconcile_bases alice_bases bob_bases alice_bits bob_bits) ;;
  (* Step 4 *)
  correct_bases <- lift (check_correct_bases alice_bases bob_bases) ;;
  let correct_bits := create_correct_bits bob_bits correct_bases in
  half_correct_bits <- randomly_store_half correct_bits ;;
  confirmed_by_alice <- lift (confirm_by_alice alice_bits half_correct_bits) ;;
  outcome <- lift (create_outcome correct_bits half_correct_bits) ;;
  eavesdropping_ratio <- lift (calculate_eavesdropping_ratio confirmed_by_alice) ;;
  ret {| alice_bits := alice_bits;
         alice_bases := alice_bases;
         eve_bases := eve_bases;
         bob_bases := bob_bases;
         bob_bits := bob_bits;
         alice_shared_key := keys.1;
         bob_shared_key := keys.2;
         correct_bases := format_correct_bases correct_bases;
         correct_bits := correct_bits;
         half_correct_bits := half_correct_bits;
         confirmed_by_alice := confirmed_by_alice;
         outcome := outcome;
         eavesdropping_ratio := eavesdropping_ratio |}.

Definition tally (results : Results) (eavesdropping_enabled eavesdropping_detected : bool)
  : Results :=
  if eavesdropping_enabled then
    if eavesdropping_detected
    then {| true_detected := S (true_detected results);
            true_non_detected := true_non_detected results;
            false_detected := false_detected results;
            false_non_detected := false_non_detected results |}
    else {| true_detected := true_detected results;
            true_non_detected := S (true_non_detected results);
            false_detected := false_detected results;
            false_non_detected := false_non_detected results |}
  else
    if eavesdropping_detected
    then {| true_detected := true_detected results;
            true_non_detected := true_non_detected results;
            false_detected := S (false_detected results);
            false_non_detected := false_non_detected results |}
    else {| true_detected := true_detected results;
            true_non_detected := true_non_detected results;
            false_detected := false_detected results;
            false_non_detected := S (false_non_detected results) |}.

(** The body of [for _ in range(num_tests)], [n] iterations. *)
Fixpoint run_tests_loop (n : nat) (results : Results) : M Results :=
  match n with
  | O => ret results
  | S n' =>
      eavesdropping_enabled <- np_random_choice1 [true; false] ;;
      data <- collect_data eavesdropping_enabled ;;
      let eavesdropping_detected := Qpositive (eavesdropping_ratio data) in
      run_tests_loop n' (tally results eavesdropping_enabled eavesdropping_detected)
  end.

(** [run_tests] prints the table it has accumulated; the model returns it. *)
Definition run_tests (num_tests : Z) : M Results :=
  let results := {| true_detected := 0; true_non_detected := 0;
                    false_detected := 0; false_non_detected := 0 |} in
  run_tests_loop (Z.to_nat num_tests) results.

End Program.

(** A tape given by its first cells; the others read 0. *)
Definition tape_of_list (l : list Z) : tape := λ i, default 0%Z (l !! i).

(** Two tapes for sessions of four qubits with Eve.  Both give Alice the
    bits 1,0,1,1 in bases 0,1,0,1, Eve the bases 1,1,0,1 and Bob the bases
    0,1,0,1.  On the first every shot in a superposition reads 1; on the
    second it reads 0, and the sampling draws read 1. *)
Definition lucky_tape : tape :=
  λ i, let q := 12 + 4 * shots in
       if i <? 12 then default 0%Z ([1; 0; 1; 1; 0; 1; 0; 1; 1; 1; 0; 1]%Z !! i)
       else if (q <=? i) && (i <? q + 4)
            then default 0%Z ([0; 1; 0; 1]%Z !! (i - q))
            else 1%Z.

Definition unsampled_tape : tape :=
  λ i, let q := 12 + 4 * shots in
       if i <? 12 then default 0%Z ([1; 0; 1; 1; 0; 1; 0; 1; 1; 1; 0; 1]%Z !! i)
       else if (q <=? i) && (i <? q + 4)
            then default 0%Z ([0; 1; 0; 1]%Z !! (i - q))
            else if i <? q + 4 + 4 * shots then 0%Z else 1%Z.

(** ** Vocabulary of the properties *)

Definition binary (b : Z) : Prop := b = 0%Z ∨ b = 1%Z.

(** The bits that [np.random.randint(2, size=n)] reads at position [p]. *)
Definition random_bits (t : tape) (p n : nat) : list Z :=
  map (λ j, (t (p + j)%nat `mod` 2)%Z) (seq 0 n).

(** What a measurement reads out of the outcomes of its shots. *)
Definition read_out (outcomes : list Z) : result Z :=
  key <~ py_max_key (get_counts outcomes) ;; py_int key.

Definition shot_outcomes (qc : QuantumCircuit) (t : tape) (p : nat) : list Z :=
  map (run_shot (qc ++ [Measure]) Ket0 0%Z) (map (λ j, t (p + j)) (seq 0 shots)).

(** The circuit a measuring party runs on a qubit prepared as [(bit, basis)]
    when its own basis is [basis']. *)
Definition measured_circuit (bit basis basis' : Z) : QuantumCircuit :=
  if (basis' =? 1)%Z then prepare_one bit basis ++ [H] else prepare_one bit basis.

(** What Eve leaves at position [i] in place of the circuit [qc]. *)
Definition resent (eve_bases : list Z) (i : nat) (qc qc' : QuantumCircuit) : Prop :=
  ∃ e m, eve_bases !! i = Some e ∧ binary e ∧ binary m
         ∧ qc' = prepare_one m e
         ∧ ∀ b, binary b → qc = prepare_one b e → m = b.

(** What Bob reads at position [i] from the circuit [qc]. *)
Definition received (bob_bases : list Z) (i : nat) (qc : QuantumCircuit) (v : Z) : Prop :=
  binary v
  ∧ ∀ b s, binary b → binary s → qc = prepare_one b s →
           bob_bases !! i = Some s → v = b.

(** The positions at which Alice's and Bob's bases agree, ascending. *)
Definition matching_positions (alice_bases bob_bases : list Z) : list nat :=
  filter (λ i, alice_bases !! i = bob_bases !! i) (seq 0 (length alice_bases)).

(** The indices disclosed by [randomly_store_half]: half of the valid ones,
    without repetition. *)
Definition half_of (bits : list Z) (selected : list nat) : Prop :=
  NoDup selected
  ∧ length selected = length (valid_indices bits) / 2
  ∧ ∀ i, i ∈ selected → i ∈ valid_indices bits.

(** Alice's verdict on one entry of the disclosed half. *)
Definition verdict (bit alice_bit : Z) : ascii :=
  if (bit =? alice_bit)%Z then "T"%char
  else if negb (bit =? -1)%Z then "F"%char else " "%char.

(** What holds of the record of a session that started at position [p] of
    the tape [t]. *)
Record session (num_qubits : Z) (eavesdropping_enabled : bool)
    (t : tape) (p : nat) (d : Data) : Prop := {
  ses_alice_bits :
    alice_bits d = random_bits t p (Z.to_nat num_qubits);
  ses_alice_bases :
    alice_bases d = random_bits t (p + Z.to_nat num_qubits) (Z.to_nat num_qubits);
  ses_eve_bases :
    eve_bases d =
      if eavesdropping_enabled
      then Some (random_bits t (p + Z.to_nat num_qubits + Z.to_nat num_qubits)
                             (Z.to_nat num_qubits))
      else None;
  ses_bob_bases :
    ∃ q, bob_bases d = random_bits t q (Z.to_nat num_qubits);
  ses_bob_bits_length : length (bob_bits d) = Z.to_nat num_qubits;
  ses_bob_bits_binary : ∀ i v, bob_bits d !! i = Some v → binary v;
  ses_undisturbed :
    ∀ i b s, alice_bits d !! i = Some b → alice_bases d !! i = Some s →
             bob_bases d !! i = Some s →
             (∀ eb, eve_bases d = Some eb → eb !! i = Some s) →
             bob_bits d !! i = Some b;
  ses_keys :
    reconcile_bases (alice_bases d) (bob_bases d) (alice_bits d) (bob_bits d)
    = Ok (alice_shared_key d, bob_shared_key d);
  ses_correct_bases :
    correct_bases d
    = format_correct_bases (zip_with Z.eqb (alice_bases d) (bob_bases d));
  ses_correct_bits :
    correct_bits d
    = create_correct_bits (bob_bits d) (zip_with Z.eqb (alice_bases d) (bob_bases d));
  ses_half :
    ∃ selected, half_of (correct_bits d) selected
      ∧ length (half_correct_bits d) = Z.to_nat num_qubits
      ∧ ∀ i, half_correct_bits d !! i
             = if decide (i ∈ selected) then correct_bits d !! i
               else replicate (length (correct_bits d)) (-1)%Z !! i;
  ses_confirmed :
    confirm_by_alice (alice_bits d) (half_correct_bits d) = Ok (confirmed_by_alice d);
  ses_outcome :
    create_outcome (correct_bits d) (half_correct_bits d) = Ok (outcome d);
  ses_ratio :
    calculate_eavesdropping_ratio num_qubits (confirmed_by_alice d)
    = Ok (eavesdropping_ratio d)
}.

Definition total (r : Results) : nat :=
  true_detected r + true_non_detected r + false_detected r + false_non_detected r.

(** The table [run_tests] starts from. *)
Definition no_results : Results :=
  {| true_detected := 0; true_non_detected := 0;
     false_detected := 0; false_non_detected := 0 |}.

(** * Properties *)

(** ** The monad *)

Lemma bind_Ok {A B : Type} (m : M A) (k : A → M B) t p a p1 :
  m t p = Ok (a, p1) → bind m k t p = k a t p1.
Proof. intros Hm. unfold bind. by rewrite Hm. Qed.

Lemma bind_Err {A B : Type} (m : M A) (k : A → M B) t p e :
  m t p = Err e → bind m k t p = Err e.
Proof. intros Hm. unfold bind. by rewrite Hm. Qed.

Lemma lift_Ok {A : Type} (r : result A) a t p :
  r = Ok a → lift r t p = Ok (a, p).
Proof. by intros ->. Qed.

Lemma draws_spec n t p :
  draws n t p = Ok (map (λ j, t (p + j)) (seq 0 n), p + n).
Proof.
  revert p. induction n as [|n IH]; intros p; simpl.
  - unfold ret. do 2 f_equal. lia.
  - rewrite (bind_Ok _ _ t p (t p) (S p)) by done.
    rewrite (bind_Ok _ _ _ _ _ _ (IH (S p))). unfold ret.
    rewrite Nat.add_0_r, <- seq_shift, map_map.
    do 2 f_equal; [|lia].
    f_equal. apply map_ext. intros j. f_equal. lia.
Qed.

Lemma np_random_randint_spec size t p :
  (0 ≤ size)%Z →
  np_random_randint 2 size t p
  = Ok (random_bits t p (Z.to_nat size), p + Z.to_nat size).
Proof.
  intros Hsize. unfold np_random_randint.
  destruct (Z.ltb_spec size 0) as [?|_]; [lia|].
  rewrite (bind_Ok _ _ _ _ _ _ (draws_spec _ t p)).
  unfold ret, random_bits. by rewrite map_map.
Qed.

Lemma np_random_randint_negative high size t p :
  (size < 0)%Z → np_random_randint high size t p = Err ValueError.
Proof.
  intros Hsize. unfold np_random_randint.
  by destruct (Z.ltb_spec size 0) as [_|?]; [|lia].
Qed.

Lemma length_random_bits t p n : length (random_bits t p n) = n.
Proof. unfold random_bits. by rewrite length_map, length_seq. Qed.

Lemma lookup_random_bits t p n i :
  i < n → random_bits t p n !! i = Some (t (p + i)%nat `mod` 2)%Z.
Proof.
  intros Hi. unfold random_bits.
  by rewrite list_lookup_fmap, lookup_seq_lt.
Qed.

Lemma binary_mod2 z : binary (z `mod` 2)%Z.
Proof. unfold binary. pose proof (Z.mod_pos_bound z 2). lia. Qed.

Lemma random_bits_binary t p n i b : random_bits t p n !! i = Some b → binary b.
Proof.
  intros Hb. assert (i < n) as Hi.
  { apply lookup_lt_Some in Hb. by rewrite length_random_bits in Hb. }
  rewrite lookup_random_bits in Hb by done. injection Hb as <-. apply binary_mod2.
Qed.

(** ** The simulator *)

Lemma binary_0 : binary 0.
Proof. by left. Qed.

Lemma binary_1 : binary 1.
Proof. by right. Qed.

Lemma run_shot_measure_binary qc k c r :
  binary (run_shot (qc ++ [Measure]) k c r).
Proof.
  revert k c. induction qc as [|g qc IH]; intros k c; simpl.
  - destruct k; simpl; auto using binary_0, binary_1, binary_mod2.
  - destruct g; apply IH.
Qed.

Lemma measure_and_read_unfold qc t p :
  measure_and_read qc t p
  = match read_out (shot_outcomes qc t p) with
    | Ok v => Ok (v, p + shots)
    | Err e => Err e
    end.
Proof.
  unfold measure_and_read, simulator_run.
  rewrite (bind_Ok _ _ t p _ _
    (bind_Ok _ _ t p _ _ (draws_spec shots t p))).
  unfold read_out, shot_outcomes, bind, lift, ret, rbind.
  destruct (py_max_key _) as [key|e]; [|done].
  by destruct (py_int key).
Qed.

Lemma length_shot_outcomes qc t p : length (shot_outcomes qc t p) = shots.
Proof. unfold shot_outcomes. by rewrite !length_map, length_seq. Qed.

Lemma shot_outcomes_binary qc t p : Forall binary (shot_outcomes qc t p).
Proof.
  unfold shot_outcomes. apply Forall_fmap, Forall_true.
  intros r. apply run_shot_measure_binary.
Qed.

Lemma shots_pos : 0 < shots.
Proof. unfold shots. lia. Qed.

Lemma count_binary (outcomes : list Z) :
  Forall binary outcomes →
  length (filter (λ b, b = 0%Z) outcomes) + length (filter (λ b, b = 1%Z) outcomes)
  = length outcomes.
Proof.
  induction 1 as [|b l [-> | ->] _ IH]; [done|..].
  - rewrite filter_cons_True, filter_cons_False by done. simpl. lia.
  - rewrite filter_cons_False, filter_cons_True by done. simpl. lia.
Qed.

Lemma read_out_cases (outcomes : list Z) :
  Forall binary outcomes → 0 < length outcomes →
  let c0 := length (filter (λ b, b = 0%Z) outcomes) in
  let c1 := length (filter (λ b, b = 1%Z) outcomes) in
  read_out outcomes = Ok (if c0 <? c1 then 1%Z else 0%Z).
Proof.
  intros Hbin Hlen c0 c1. pose proof (count_binary _ Hbin) as Hsum.
  fold c0 c1 in Hsum. unfold read_out, get_counts. fold c0 c1.
  destruct (decide (c0 = 0)) as [H0|H0]; destruct (decide (c1 = 0)) as [H1|H1].
  - lia.
  - rewrite filter_cons_False by (simpl; tauto).
    rewrite filter_cons_True by done. rewrite filter_nil. simpl.
    destruct (Nat.ltb_spec c0 c1); [done|lia].
  - rewrite filter_cons_True by done.
    rewrite filter_cons_False by (simpl; tauto). rewrite filter_nil. simpl.
    destruct (Nat.ltb_spec c0 c1); [lia|done].
  - rewrite !filter_cons_True by done. rewrite filter_nil. simpl.
    by destruct (c0 <? c1).
Qed.

Lemma filter_replicate (x y : Z) n :
  filter (λ b, b = y) (replicate n x) = replicate (if decide (x = y) then n else 0) x.
Proof.
  induction n as [|n IH]; simpl; [by destruct (decide _)|].
  destruct (decide (x = y)) as [Heq|Hne].
  - by rewrite filter_cons_True, IH.
  - by rewrite filter_cons_False, IH.
Qed.

(** Every measurement returns, yields a bit and reads [shots] cells. *)
Lemma measure_and_read_total qc t p :
  ∃ v, measure_and_read qc t p = Ok (v, p + shots) ∧ binary v.
Proof.
  rewrite measure_and_read_unfold, read_out_cases.
  - eexists; split; [done|]. destruct (_ <? _); auto using binary_0, binary_1.
  - apply shot_outcomes_binary.
  - rewrite length_shot_outcomes. apply shots_pos.
Qed.

(** When every shot reads the same bit, that bit is the result. *)
Lemma measure_and_read_certain qc b t p :
  binary b →
  (∀ j, run_shot (qc ++ [Measure]) Ket0 0%Z (t (p + j)) = b) →
  measure_and_read qc t p = Ok (b, p + shots).
Proof.
  intros Hb Hshot.
  assert (shot_outcomes qc t p = replicate shots b) as Hout.
  { unfold shot_outcomes. rewrite <- (length_seq shots 0) at 2.
    generalize (seq 0 shots). intros l. induction l as [|j l IH]; [done|].
    simpl. by rewrite IH, Hshot. }
  rewrite measure_and_read_unfold, read_out_cases.
  - rewrite Hout, !filter_replicate, !length_replicate.
    pose proof shots_pos as Hpos. revert Hpos. generalize shots. intros n Hn.
    destruct Hb as [-> | ->]; simpl.
    + done.
    + destruct (Nat.ltb_spec 0 n); [done|lia].
  - apply shot_outcomes_binary.
  - rewrite length_shot_outcomes. apply shots_pos.
Qed.

Lemma run_shot_matching b s r :
  binary b → binary s →
  run_shot (measured_circuit b s s ++ [Measure]) Ket0 0%Z r = b.
Proof. by intros [-> | ->] [-> | ->]. Qed.

Lemma measure_matching b s t p :
  binary b → binary s →
  measure_and_read (measured_circuit b s s) t p = Ok (b, p + shots).
Proof.
  intros Hb Hs. apply measure_and_read_certain; [done|].
  intros j. by apply run_shot_matching.
Qed.

(** ** Loops *)

Lemma rmapM_Ok {A B : Type} (f : A → result B) (g : A → B) (l : list A) :
  (∀ a, a ∈ l → f a = Ok (g a)) → rmapM f l = Ok (map g l).
Proof.
  induction l as [|a l IH]; intros Hf; simpl; [done|].
  rewrite Hf by apply list_elem_of_here. simpl.
  rewrite IH; [done|]. intros a' Ha'. apply Hf. by apply list_elem_of_further.
Qed.

Lemma for_enumerate_spec {A B : Type} (f : nat → A → M B)
    (P : nat → A → B → Prop) (c : nat) (t : tape) (l : list A) :
  ∀ i0 p,
    (∀ j a p', l !! j = Some a →
               ∃ b, f (i0 + j) a t p' = Ok (b, p' + c) ∧ P (i0 + j) a b) →
    ∃ bs, for_enumerate f i0 l t p = Ok (bs, p + c * length l)
          ∧ length bs = length l
          ∧ ∀ j a, l !! j = Some a → ∃ b, bs !! j = Some b ∧ P (i0 + j) a b.
Proof.
  induction l as [|a l IH]; intros i0 p Hf; simpl.
  - exists []. unfold ret. split_and!; [do 2 f_equal; lia|done|done].
  - destruct (Hf 0 a p eq_refl) as (b & Hb & HP).
    rewrite Nat.add_0_r in Hb, HP.
    destruct (IH (S i0) (p + c)) as (bs & Hbs & Hlen & Hall).
    { intros j a' p' Ha'. destruct (Hf (S j) a' p' Ha') as (b' & Hb' & HP').
      exists b'. by rewrite <- Nat.add_succ_comm in Hb', HP'. }
    exists (b :: bs).
    rewrite (bind_Ok _ _ _ _ _ _ Hb), (bind_Ok _ _ _ _ _ _ Hbs). unfold ret.
    split_and!.
    + do 2 f_equal. lia.
    + simpl. by rewrite Hlen.
    + intros [|j] a' Ha'; simpl in *.
      * injection Ha' as <-. exists b. by rewrite Nat.add_0_r.
      * destruct (Hall j a' Ha') as (b' & Hb' & HP'). exists b'.
        by rewrite <- Nat.add_succ_comm.
Qed.

Lemma index_Ok {A : Type} (l : list A) i a : l !! i = Some a → index l i = Ok a.
Proof. unfold index. by intros ->. Qed.

Lemma index_Err {A : Type} (l : list A) i : length l ≤ i → index l i = Err IndexError.
Proof. intros Hi. unfold index. by rewrite lookup_ge_None_2. Qed.

(** ** Preparation, interception and measurement *)

Lemma prepare_one_inj b s b' s' :
  binary b → binary s → binary b' → binary s' →
  prepare_one b s = prepare_one b' s' → b = b' ∧ s = s'.
Proof. by intros [-> | ->] [-> | ->] [-> | ->] [-> | ->]. Qed.

Lemma prepare_qubits_spec num_qubits (bits bases : list Z) :
  length bits = Z.to_nat num_qubits → length bases = Z.to_nat num_qubits →
  ∃ circuits, prepare_qubits num_qubits bits bases = Ok circuits
    ∧ length circuits = Z.to_nat num_qubits
    ∧ ∀ i b s, bits !! i = Some b → bases !! i = Some s →
               circuits !! i = Some (prepare_one b s).
Proof.
  intros Hbits Hbases. unfold prepare_qubits.
  set (g := λ i, prepare_one (default 0%Z (bits !! i)) (default 0%Z (bases !! i))).
  exists (map g (seq 0 (Z.to_nat num_qubits))). split_and!.
  - apply rmapM_Ok. intros i [_ Hi]%elem_of_seq. simpl in Hi.
    destruct (lookup_lt_is_Some_2 bits i) as [b Hb]; [lia|].
    destruct (lookup_lt_is_Some_2 bases i) as [s Hs]; [lia|].
    unfold g. by rewrite (index_Ok _ _ _ Hb), (index_Ok _ _ _ Hs), Hb, Hs.
  - by rewrite length_map, length_seq.
  - intros i b s Hb Hs. rewrite list_lookup_fmap, lookup_seq_lt.
    + unfold g. simpl. by rewrite Hb, Hs.
    + apply lookup_lt_Some in Hb. lia.
Qed.

Lemma eve_intercepts_spec (circuits : list QuantumCircuit) num_qubits t p :
  (0 ≤ num_qubits)%Z → length circuits = Z.to_nat num_qubits →
  let n := Z.to_nat num_qubits in
  let eve_bases := random_bits t p n in
  ∃ tampered,
    eve_intercepts circuits num_qubits t p
    = Ok ((eve_bases, tampered), p + n + shots * n)
    ∧ length tampered = n
    ∧ ∀ i qc, circuits !! i = Some qc →
              ∃ qc', tampered !! i = Some qc' ∧ resent eve_bases i qc qc'.
Proof.
  intros Hpos Hlen n eve_bases. unfold eve_intercepts.
  rewrite (bind_Ok _ _ _ _ _ _ (np_random_randint_spec _ t p Hpos)).
  fold n eve_bases.
  edestruct (for_enumerate_spec
    (λ i qc,
      eve_basis <- lift (index eve_bases i) ;;
      let qc_copy := qc in
      let qc_copy := if (eve_basis =? 1)%Z then qc_copy ++ [H] else qc_copy in
      measured_bit <- measure_and_read qc_copy ;;
      ret (prepare_one measured_bit eve_basis))
    (resent eve_bases) shots t circuits 0 (p + n)) as (tampered & Hrun & Hlen' & Hall).
  { intros j qc p' Hqc. simpl.
    assert (j < n) as Hj by (apply lookup_lt_Some in Hqc; unfold n; lia).
    pose proof (lookup_random_bits t p n j Hj) as He. fold eve_bases in He.
    set (e := (t (p + j)%nat `mod` 2)%Z) in He.
    assert (binary e) as Hbe by apply binary_mod2.
    rewrite (bind_Ok _ _ _ _ _ _ (lift_Ok _ _ t p' (index_Ok _ _ _ He))).
    destruct (measure_and_read_total (if (e =? 1)%Z then qc ++ [H] else qc) t p')
      as (m & Hm & Hbm).
    rewrite (bind_Ok _ _ _ _ _ _ Hm). unfold ret.
    eexists; split; [done|]. exists e, m. split_and!; try done.
    intros b Hb ->. fold (measured_circuit b e e) in Hm.
    rewrite measure_matching in Hm by done. by injection Hm. }
  rewrite (bind_Ok _ _ _ _ _ _ Hrun). unfold ret.
  exists tampered. rewrite Hlen. split_and!; [done|unfold n; lia|done].
Qed.

Lemma bob_measures_spec (circuits : list QuantumCircuit) num_qubits t p :
  (0 ≤ num_qubits)%Z → length circuits = Z.to_nat num_qubits →
  let n := Z.to_nat num_qubits in
  let bob_bases := random_bits t p n in
  ∃ bob_bits,
    bob_measures circuits num_qubits t p
    = Ok ((bob_bases, bob_bits), p + n + shots * n)
    ∧ length bob_bits = n
    ∧ ∀ i qc, circuits !! i = Some qc →
              ∃ v, bob_bits !! i = Some v ∧ received bob_bases i qc v.
Proof.
  intros Hpos Hlen n bob_bases. unfold bob_measures.
  rewrite (bind_Ok _ _ _ _ _ _ (np_random_randint_spec _ t p Hpos)).
  fold n bob_bases.
  edestruct (for_enumerate_spec
    (λ i qc,
      bob_basis <- lift (index bob_bases i) ;;
      let qc := if (bob_basis =? 1)%Z then qc ++ [H] else qc in
      measure_and_read qc)
    (received bob_bases) shots t circuits 0 (p + n)) as (bits & Hrun & Hlen' & Hall).
  { intros j qc p' Hqc. simpl.
    assert (j < n) as Hj by (apply lookup_lt_Some in Hqc; unfold n; lia).
    pose proof (lookup_random_bits t p n j Hj) as He. fold bob_bases in He.
    set (e := (t (p + j)%nat `mod` 2)%Z) in He.
    rewrite (bind_Ok _ _ _ _ _ _ (lift_Ok _ _ t p' (index_Ok _ _ _ He))).
    destruct (measure_and_read_total (if (e =? 1)%Z then qc ++ [H] else qc) t p')
      as (m & Hm & Hbm).
    exists m. split; [done|]. split; [done|].
    intros b s Hb Hs -> Hs'. assert (s = e) as -> by congruence.
    fold (measured_circuit b e e) in Hm.
    rewrite measure_matching in Hm by done. by injection Hm. }
  rewrite (bind_Ok _ _ _ _ _ _ Hrun). unfold ret.
  exists bits. rewrite Hlen. split_and!; [done|unfold n; lia|done].
Qed.

(** ** Sifting *)

Lemma filter_ext_in {A : Type} (P Q : A → Prop)
    `{!∀ x, Decision (P x), !∀ x, Decision (Q x)} (l : list A) :
  (∀ x, x ∈ l → P x ↔ Q x) → filter P l = filter Q l.
Proof.
  induction l as [|a l IH]; intros HPQ; [done|].
  assert (filter P l = filter Q l) as Hl.
  { apply IH. intros x Hx. apply HPQ. by apply list_elem_of_further. }
  destruct (decide (P a)) as [HP|HP].
  - rewrite !filter_cons_True; [by rewrite Hl| |done].
    by apply HPQ; [apply list_elem_of_here|].
  - rewrite !filter_cons_False; [done| |done].
    intros HQ. apply HP. by apply HPQ; [apply list_elem_of_here|].
Qed.

Lemma filter_none {A : Type} (P : A → Prop) `{!∀ x, Decision (P x)} (l : list A) :
  Forall (λ x, ¬ P x) l → filter P l = [].
Proof.
  induction 1 as [|x l Hx _ IH]; [done|]. by rewrite filter_cons_False.
Qed.

Lemma np_where_seq (mask : list bool) (i0 : nat) :
  np_where i0 mask
  = filter (λ i, mask !! (i - i0) = Some true) (seq i0 (length mask)).
Proof.
  revert i0. induction mask as [|m mask IH]; intros i0; [done|].
  assert (filter (λ i, (m :: mask) !! (i - i0) = Some true) (seq (S i0) (length mask))
          = np_where (S i0) mask) as Hrest.
  { rewrite IH. apply filter_ext_in. intros i [Hi _]%elem_of_seq.
    by replace (i - i0) with (S (i - S i0)) by lia. }
  simpl length. simpl seq. destruct m; simpl np_where.
  - rewrite filter_cons_True, Hrest; [done|]. by rewrite Nat.sub_diag.
  - rewrite filter_cons_False, Hrest; [done|]. by rewrite Nat.sub_diag.
Qed.

Lemma lookup_eqb_mask (a b : list Z) i :
  i < length a → length a = length b →
  zip_with Z.eqb a b !! i = Some true ↔ a !! i = b !! i.
Proof.
  intros Hi Hlen. rewrite lookup_zip_with.
  destruct (lookup_lt_is_Some_2 a i Hi) as [x ->].
  destruct (lookup_lt_is_Some_2 b i) as [y ->]; [lia|]. simpl.
  destruct (Z.eqb_spec x y) as [->|Hne]; [done|].
  split; [done|]. intros [=]. done.
Qed.

Lemma np_where_matching (a b : list Z) :
  length a = length b →
  np_where 0 (zip_with Z.eqb a b) = matching_positions a b.
Proof.
  intros Hlen. rewrite np_where_seq, length_zip_with_l_eq by done.
  apply filter_ext_in. intros i [_ Hi]%elem_of_seq.
  rewrite Nat.sub_0_r. apply lookup_eqb_mask; [lia|done].
Qed.

Lemma matching_positions_lt (a b : list Z) i :
  i ∈ matching_positions a b → i < length a.
Proof. intros [_ [_ Hi]%elem_of_seq]%list_elem_of_filter. lia. Qed.

Lemma np_take_spec {A : Type} (a : list A) (indices : list nat) :
  (∀ i, i ∈ indices → i < length a) →
  ∃ xs, np_take a indices = Ok xs ∧ Forall2 (λ i x, a !! i = Some x) indices xs.
Proof.
  induction indices as [|i indices IH]; intros Hlt; simpl.
  - by exists [].
  - destruct (lookup_lt_is_Some_2 a i) as [x Hx];
      [apply Hlt, list_elem_of_here|].
    destruct IH as (xs & Hxs & Hall).
    { intros j Hj. by apply Hlt, list_elem_of_further. }
    exists (x :: xs). rewrite (index_Ok _ _ _ Hx), Hxs. simpl.
    split; [done|]. by constructor.
Qed.

Lemma np_eq_Ok (a b : list Z) :
  length a = length b → np_eq a b = Ok (zip_with Z.eqb a b).
Proof. intros Hlen. unfold np_eq. by rewrite Hlen, Nat.eqb_refl. Qed.

Lemma reconcile_bases_spec (abases bbases abits bbits : list Z) :
  length abases = length bbases →
  length abits = length abases → length bbits = length abases →
  ∃ akey bkey,
    reconcile_bases abases bbases abits bbits = Ok (akey, bkey)
    ∧ Forall2 (λ i x, abits !! i = Some x) (matching_positions abases bbases) akey
    ∧ Forall2 (λ i x, bbits !! i = Some x) (matching_positions abases bbases) bkey.
Proof.
  intros Hbases Habits Hbbits. unfold reconcile_bases.
  rewrite np_eq_Ok by done. simpl. rewrite np_where_matching by done.
  destruct (np_take_spec abits (matching_positions abases bbases))
    as (akey & -> & Ha).
  { intros i Hi%matching_positions_lt. lia. }
  destruct (np_take_spec bbits (matching_positions abases bbases))
    as (bkey & -> & Hb).
  { intros i Hi%matching_positions_lt. lia. }
  by exists akey, bkey.
Qed.

(** ** The disclosed half *)

Lemma lookup_enumerate {A : Type} (l : list A) i j x :
  enumerate l !! i = Some (j, x) ↔ j = i ∧ l !! i = Some x.
Proof.
  unfold enumerate. rewrite lookup_zip_Some, lookup_seq. simpl.
  split; [by intros [[-> _] Hx]|].
  intros [-> Hx]. split_and!; try done.
  by apply lookup_lt_Some in Hx.
Qed.

Lemma elem_of_enumerate {A : Type} (l : list A) j x :
  (j, x) ∈ enumerate l ↔ l !! j = Some x.
Proof.
  rewrite list_elem_of_lookup. split.
  - intros [i [-> Hx]%lookup_enumerate]. done.
  - intros Hx. exists j. by apply lookup_enumerate.
Qed.

Lemma fst_enumerate {A : Type} (l : list A) : (enumerate l).*1 = seq 0 (length l).
Proof. unfold enumerate. apply fst_zip. by rewrite length_seq. Qed.

Lemma elem_of_valid_indices (bits : list Z) i :
  i ∈ valid_indices bits ↔ ∃ b, bits !! i = Some b ∧ b ≠ (-1)%Z.
Proof.
  unfold valid_indices. rewrite list_elem_of_fmap. split.
  - intros ([j b] & -> & [Hb Hin]%list_elem_of_filter).
    apply elem_of_enumerate in Hin. by exists b.
  - intros (b & Hb & Hne). exists (i, b). split; [done|].
    apply list_elem_of_filter. split; [done|]. by apply elem_of_enumerate.
Qed.

Lemma NoDup_valid_indices (bits : list Z) : NoDup (valid_indices bits).
Proof.
  unfold valid_indices.
  apply (sublist_NoDup _ (seq 0 (length bits))); [apply NoDup_seq|].
  rewrite <- fst_enumerate. apply fmap_sublist, sublist_filter.
Qed.

Lemma valid_indices_lt (bits : list Z) i : i ∈ valid_indices bits → i < length bits.
Proof. intros (b & Hb & _)%elem_of_valid_indices. by apply lookup_lt_Some in Hb. Qed.

Lemma permute_Permutation {A : Type} (n : nat) (a : list A) t p :
  n = length a → permute n a t p ≡ₚ a.
Proof.
  revert a p. induction n as [|n IH]; intros a p Hn; simpl.
  - by destruct a.
  - set (j := Z.to_nat (t p `mod` Z.of_nat (length a))%Z).
    assert (j < length a) as Hj.
    { unfold j. pose proof (Z.mod_pos_bound (t p) (Z.of_nat (length a))). lia. }
    destruct (lookup_lt_is_Some_2 a j Hj) as [x Hx]. rewrite Hx.
    rewrite (delete_Permutation a j x Hx) at 2. constructor.
    apply IH. rewrite length_delete by eauto. lia.
Qed.

Lemma np_random_choice_spec {A : Type} (a : list A) (size : nat) t p :
  size ≤ length a → NoDup a →
  ∃ chosen, np_random_choice a size t p = Ok (chosen, p + length a)
    ∧ NoDup chosen ∧ length chosen = size ∧ ∀ x, x ∈ chosen → x ∈ a.
Proof.
  intros Hsize Hnodup. unfold np_random_choice.
  destruct (Nat.ltb_spec (length a) size) as [?|_]; [lia|].
  unfold bind, np_random_permutation, ret.
  pose proof (permute_Permutation (length a) a t p eq_refl) as Hperm.
  exists (take size (permute (length a) a t p)). split_and!; [done|..].
  - eapply sublist_NoDup; [|apply sublist_take]. by rewrite Hperm.
  - rewrite length_take_le; [done|]. by rewrite Hperm.
  - intros x (i & Hi & _)%elem_of_take. rewrite <- Hperm.
    by eapply list_elem_of_lookup_2.
Qed.

Lemma length_enumerate {A : Type} (l : list A) : length (enumerate l) = length l.
Proof. by rewrite <- (length_fmap fst), fst_enumerate, length_seq. Qed.

Lemma rmapM_enumerate_spec {A B : Type} (f : nat * A → result B)
    (g : nat → A → B) (l : list A) :
  (∀ i a, l !! i = Some a → f (i, a) = Ok (g i a)) →
  ∃ bs, rmapM f (enumerate l) = Ok bs
        ∧ length bs = length l
        ∧ ∀ i a, l !! i = Some a → bs !! i = Some (g i a).
Proof.
  intros Hf. exists (map (λ ib, g ib.1 ib.2) (enumerate l)). split_and!.
  - apply rmapM_Ok. intros [i a] Hia%elem_of_enumerate. by apply Hf.
  - by rewrite length_map, length_enumerate.
  - intros i a Ha. rewrite list_lookup_fmap.
    by rewrite (proj2 (lookup_enumerate l i i a)).
Qed.

Lemma store_selected_spec (bits : list Z) (selected : list nat) :
  (∀ i, i ∈ selected → i < length bits) →
  ∀ half, length half = length bits →
    ∃ half', store_selected bits selected half = Ok half'
      ∧ length half' = length bits
      ∧ ∀ i, half' !! i = if decide (i ∈ selected) then bits !! i else half !! i.
Proof.
  induction selected as [|j rest IH]; intros Hlt half Hlen; simpl.
  - exists half. split_and!; [done..|]. intros i.
    destruct (decide (i ∈ [])) as [Hin|_]; [by apply elem_of_nil in Hin|done].
  - assert (j < length bits) as Hj by apply Hlt, list_elem_of_here.
    destruct (lookup_lt_is_Some_2 bits j Hj) as [bit Hbit].
    rewrite (index_Ok _ _ _ Hbit). simpl. unfold assign.
    destruct (Nat.ltb_spec j (length half)) as [_|?]; [|lia]. simpl.
    destruct (IH (λ i Hi, Hlt i (list_elem_of_further _ _ _ Hi))
                 (<[j:=bit]> half)) as (half' & Hrun & Hlen' & Hall).
    { by rewrite length_insert. }
    exists half'. split_and!; [done..|]. intros i. rewrite Hall.
    destruct (decide (i ∈ rest)) as [Hin|Hnin].
    + rewrite decide_True; [done|]. by apply list_elem_of_further.
    + destruct (decide (i = j)) as [->|Hne].
      * rewrite decide_True by apply list_elem_of_here.
        rewrite list_lookup_insert_eq; [done|lia].
      * rewrite decide_False; [by rewrite list_lookup_insert_ne|].
        intros [->|?]%elem_of_cons; done.
Qed.

Lemma randomly_store_half_spec (bits : list Z) t p :
  ∃ selected half,
    randomly_store_half bits t p = Ok (half, p + length (valid_indices bits))
    ∧ half_of bits selected
    ∧ length half = length bits
    ∧ ∀ i, half !! i = if decide (i ∈ selected) then bits !! i
                       else replicate (length bits) (-1)%Z !! i.
Proof.
  unfold randomly_store_half.
  destruct (np_random_choice_spec (valid_indices bits)
              (length (valid_indices bits) / 2) t p)
    as (selected & Hrun & Hnodup & Hlen & Hsub).
  { apply Nat.Div0.div_le_upper_bound. lia. }
  { apply NoDup_valid_indices. }
  rewrite (bind_Ok _ _ _ _ _ _ Hrun).
  destruct (store_selected_spec bits selected) with
    (half := replicate (length bits) (-1)%Z) as (half & Hstore & Hlen' & Hall).
  { intros i Hi. by apply valid_indices_lt, Hsub. }
  { by rewrite length_replicate. }
  exists selected, half. by rewrite (lift_Ok _ _ _ _ Hstore).
Qed.

(** The positions at which a list of bits holds a bit rather than [-1] are
    its valid indices; for the disclosed half these are the selected ones. *)
Lemma elem_of_valid_indices_half (bits half : list Z) (selected : list nat) i :
  (∀ i, i ∈ selected → i ∈ valid_indices bits) →
  (∀ i, half !! i = if decide (i ∈ selected) then bits !! i
                    else replicate (length bits) (-1)%Z !! i) →
  i ∈ valid_indices half ↔ i ∈ selected.
Proof.
  intros Hsub Hhalf. rewrite elem_of_valid_indices, Hhalf.
  destruct (decide (i ∈ selected)) as [Hin|Hnin].
  - split; [done|]. intros _. by apply elem_of_valid_indices, Hsub.
  - split; [|done]. intros (b & Hb & Hne).
    apply lookup_replicate in Hb as [-> _]. done.
Qed.

Lemma length_valid_indices_half (bits half : list Z) (selected : list nat) :
  half_of bits selected →
  (∀ i, half !! i = if decide (i ∈ selected) then bits !! i
                    else replicate (length bits) (-1)%Z !! i) →
  length (valid_indices half) = length (valid_indices bits) / 2.
Proof.
  intros (Hnodup & Hlen & Hsub) Hhalf. rewrite <- Hlen.
  apply Permutation_length, NoDup_Permutation;
    [apply NoDup_valid_indices|done|].
  intros i. by apply elem_of_valid_indices_half with bits.
Qed.

Lemma confirm_by_alice_spec (abits half : list Z) :
  length half = length abits →
  ∃ confirmed, confirm_by_alice abits half = Ok confirmed
    ∧ length confirmed = length half
    ∧ ∀ i h a, half !! i = Some h → abits !! i = Some a →
               confirmed !! i = Some (verdict h a).
Proof.
  intros Hlen. unfold confirm_by_alice.
  edestruct (rmapM_enumerate_spec
    (λ ib : nat * Z,
       alice_bit <~ index abits ib.1 ;;
       Ok (if (ib.2 =? alice_bit)%Z then "T"%char
           else if negb (ib.2 =? -1)%Z then "F"%char else " "%char))
    (λ i h, verdict h (default 0%Z (abits !! i))) half)
    as (confirmed & Hrun & Hlen' & Hall).
  { intros i h Hh. simpl.
    destruct (lookup_lt_is_Some_2 abits i) as [a Ha].
    { apply lookup_lt_Some in Hh. lia. }
    by rewrite (index_Ok _ _ _ Ha), Ha. }
  exists confirmed. split_and!; [done..|].
  intros i h a Hh Ha. by rewrite (Hall i h Hh), Ha.
Qed.

Lemma create_outcome_spec (bits half : list Z) :
  length half = length bits →
  ∃ out, create_outcome bits half = Ok out
    ∧ length out = length bits
    ∧ ∀ i b h, bits !! i = Some b → half !! i = Some h →
               out !! i = Some (if (h =? -1)%Z then b else (-1)%Z).
Proof.
  intros Hlen. unfold create_outcome.
  edestruct (rmapM_enumerate_spec
    (λ ib : nat * Z,
       half <~ index half ib.1 ;;
       Ok (if (half =? -1)%Z then ib.2 else (-1)%Z))
    (λ i b, if (default 0%Z (half !! i) =? -1)%Z then b else (-1)%Z) bits)
    as (out & Hrun & Hlen' & Hall).
  { intros i b Hb. simpl.
    destruct (lookup_lt_is_Some_2 half i) as [h Hh].
    { apply lookup_lt_Some in Hb. lia. }
    by rewrite (index_Ok _ _ _ Hh), Hh. }
  exists out. split_and!; [done..|].
  intros i b h Hb Hh. by rewrite (Hall i b Hb), Hh.
Qed.

(** ** One session *)

Lemma generate_alice_data_spec num_qubits t p :
  (0 ≤ num_qubits)%Z →
  let n := Z.to_nat num_qubits in
  generate_alice_data num_qubits t p
  = Ok ((random_bits t p n, random_bits t (p + n) n), p + n + n).
Proof.
  intros Hpos n. unfold generate_alice_data.
  rewrite (bind_Ok _ _ _ _ _ _ (np_random_randint_spec _ t p Hpos)).
  by rewrite (bind_Ok _ _ _ _ _ _ (np_random_randint_spec _ t (p + n) Hpos)).
Qed.

(** The channel between Alice and Bob: with Eve, the circuit of a position
    is replaced by hers; it is the same circuit wherever her basis is
    Alice's. *)
Lemma channel_spec num_qubits (eavesdropping_enabled : bool)
    (circuits : list QuantumCircuit) t q :
  (0 ≤ num_qubits)%Z → length circuits = Z.to_nat num_qubits →
  let n := Z.to_nat num_qubits in
  let ebases := if eavesdropping_enabled then Some (random_bits t q n) else None in
  let q' := if eavesdropping_enabled then q + n + shots * n else q in
  ∃ circuits',
    (if eavesdropping_enabled
     then eve <- eve_intercepts circuits num_qubits ;; ret (Some eve.1, eve.2)
     else ret (None, circuits)) t q
    = Ok ((ebases, circuits'), q')
    ∧ length circuits' = n
    ∧ ∀ i b s, binary b → binary s →
        circuits !! i = Some (prepare_one b s) →
        (∀ eb, ebases = Some eb → eb !! i = Some s) →
        circuits' !! i = Some (prepare_one b s).
Proof.
  intros Hpos Hlen n ebases q'. destruct eavesdropping_enabled.
  - destruct (eve_intercepts_spec circuits num_qubits t q Hpos Hlen)
      as (tampered & Hrun & Hlen' & Hall).
    exists tampered. rewrite (bind_Ok _ _ _ _ _ _ Hrun). split_and!; [done..|].
    intros i b s Hb Hs Hqc Heve.
    destruct (Hall i _ Hqc) as (qc' & Hqc' & e & m & He & _ & _ & -> & Hm).
    assert (e = s) as ->.
    { specialize (Heve _ eq_refl). unfold n in Heve. congruence. }
    by rewrite Hqc', (Hm b Hb eq_refl).
  - exists circuits. unfold ret. split_and!; [done..|]. by intros.
Qed.

Lemma lookup_create_correct_bits (bbits abases bbases : list Z) i v a b :
  bbits !! i = Some v → abases !! i = Some a → bbases !! i = Some b →
  create_correct_bits bbits (zip_with Z.eqb abases bbases) !! i
  = Some (if (a =? b)%Z then v else (-1)%Z).
Proof.
  intros Hv Ha Hb. unfold create_correct_bits.
  by rewrite !lookup_zip_with, Hv, Ha, Hb.
Qed.

Lemma length_create_correct_bits (bbits abases bbases : list Z) n :
  length bbits = n → length abases = n → length bbases = n →
  length (create_correct_bits bbits (zip_with Z.eqb abases bbases)) = n.
Proof.
  intros Hv Ha Hb. unfold create_correct_bits.
  rewrite !length_zip_with. lia.
Qed.

(** Every session on a positive number of qubits returns a record, and the
    record is as [session] says. *)
Lemma collect_data_session num_qubits (eavesdropping_enabled : bool) t p :
  (0 < num_qubits)%Z →
  ∃ d p', collect_data num_qubits eavesdropping_enabled t p = Ok (d, p')
          ∧ session num_qubits eavesdropping_enabled t p d.
Proof.
  intros Hpos. assert (0 ≤ num_qubits)%Z as Hnn by lia.
  set (n := Z.to_nat num_qubits).
  set (abits := random_bits t p n). set (abases := random_bits t (p + n) n).
  assert (length abits = n) as Habits by apply length_random_bits.
  assert (length abases = n) as Habases by apply length_random_bits.
  destruct (prepare_qubits_spec num_qubits abits abases Habits Habases)
    as (circuits & Hprep & Hlenc & Hcirc).
  destruct (channel_spec num_qubits eavesdropping_enabled circuits t (p + n + n)
              Hnn Hlenc) as (circuits' & Hchan & Hlenc' & Hcirc').
  fold n in Hchan, Hlenc', Hcirc'.
  set (ebases := if eavesdropping_enabled
                 then Some (random_bits t (p + n + n) n) else None) in *.
  set (q := if eavesdropping_enabled then p + n + n + n + shots * n
            else p + n + n) in *.
  destruct (bob_measures_spec circuits' num_qubits t q Hnn Hlenc')
    as (bbits & Hbob & Hlenb & Hrecv).
  fold n in Hbob, Hlenb, Hrecv. set (bbases := random_bits t q n) in *.
  assert (length bbases = n) as Hbbases by apply length_random_bits.
  destruct (reconcile_bases_spec abases bbases abits bbits)
    as (akey & bkey & Hkeys & _); [lia..|].
  set (mask := zip_with Z.eqb abases bbases).
  set (cbits := create_correct_bits bbits mask).
  assert (length cbits = n) as Hcbits by by apply length_create_correct_bits.
  destruct (randomly_store_half_spec cbits t (q + n + shots * n))
    as (selected & half & Hhalf & Hsel & Hlenh & Hlook).
  destruct (confirm_by_alice_spec abits half) as (confirmed & Hconf & Hlenf & _);
    [lia|].
  destruct (create_outcome_spec cbits half) as (out & Hout & _); [lia|].
  set (ratio := (inject_Z (Z.of_nat (py_count "F" confirmed)) / inject_Z num_qubits
                 * 100)%Q).
  assert (calculate_eavesdropping_ratio num_qubits confirmed = Ok ratio) as Hratio.
  { unfold calculate_eavesdropping_ratio.
    destruct (Z.eqb_spec num_qubits 0); [lia|done]. }
  eexists _, _. split.
  - unfold collect_data.
    rewrite (bind_Ok _ _ _ _ _ _ (generate_alice_data_spec _ t p Hnn)).
    cbv zeta. cbn [fst snd]. fold n abits abases.
    rewrite (bind_Ok _ _ _ _ _ _ (lift_Ok _ _ t _ Hprep)).
    rewrite (bind_Ok _ _ _ _ _ _ Hchan). cbn [fst snd].
    rewrite (bind_Ok _ _ _ _ _ _ Hbob). cbn [fst snd].
    rewrite (bind_Ok _ _ _ _ _ _ (lift_Ok _ _ t _ Hkeys)).
    rewrite (bind_Ok _ _ _ _ _ _
      (lift_Ok _ _ t _ (np_eq_Ok abases bbases ltac:(lia)))).
    fold mask cbits.
    rewrite (bind_Ok _ _ _ _ _ _ Hhalf).
    rewrite (bind_Ok _ _ _ _ _ _ (lift_Ok _ _ t _ Hconf)).
    rewrite (bind_Ok _ _ _ _ _ _ (lift_Ok _ _ t _ Hout)).
    rewrite (bind_Ok _ _ _ _ _ _ (lift_Ok _ _ t _ Hratio)).
    unfold ret. reflexivity.
  - constructor; cbn [alice_bits alice_bases eve_bases bob_bases bob_bits
      alice_shared_key bob_shared_key correct_bases correct_bits
      half_correct_bits confirmed_by_alice outcome eavesdropping_ratio fst snd];
      try done.
    + by exists q.
    + intros i v Hv.
      destruct (lookup_lt_is_Some_2 circuits' i) as [qc Hqc].
      { apply lookup_lt_Some in Hv. lia. }
      destruct (Hrecv i qc Hqc) as (v' & Hv' & Hbin & _). congruence.
    + intros i b s Hb Hs Hs' Heve.
      assert (binary b) as Hbb by by eapply random_bits_binary.
      assert (binary s) as Hbs by by eapply random_bits_binary.
      pose proof (Hcirc' i b s Hbb Hbs (Hcirc i b s Hb Hs) Heve) as Hqc.
      destruct (Hrecv i _ Hqc) as (v & Hv & _ & Hsame).
      by rewrite Hv, (Hsame b s Hbb Hbs eq_refl Hs').
    + exists selected. split_and!; [done| |done]. by rewrite Hlenh.
Qed.

Lemma collect_data_negative num_qubits (eavesdropping_enabled : bool) t p :
  (num_qubits < 0)%Z →
  collect_data num_qubits eavesdropping_enabled t p = Err ValueError.
Proof.
  intros Hneg. unfold collect_data, generate_alice_data.
  apply bind_Err, bind_Err. by apply np_random_randint_negative.
Qed.

Lemma collect_data_zero (eavesdropping_enabled : bool) t p :
  collect_data 0 eavesdropping_enabled t p = Err ZeroDivisionError.
Proof. by destruct eavesdropping_enabled. Qed.

Lemma collect_data_Ok_session num_qubits (eavesdropping_enabled : bool) t p d p' :
  collect_data num_qubits eavesdropping_enabled t p = Ok (d, p') →
  (0 < num_qubits)%Z ∧ session num_qubits eavesdropping_enabled t p d.
Proof.
  intros Hrun. assert (0 < num_qubits)%Z as Hpos.
  { destruct (Z.lt_trichotomy num_qubits 0) as [Hneg|[->|?]]; [..|done].
    - by rewrite collect_data_negative in Hrun.
    - by rewrite collect_data_zero in Hrun. }
  split; [done|].
  destruct (collect_data_session num_qubits eavesdropping_enabled t p Hpos)
    as (d' & p'' & Hrun' & Hses). congruence.
Qed.

(** ** Consequences of the session invariant *)

Section Session.

Context {num_qubits : Z} {eavesdropping_enabled : bool} {t : tape} {p : nat}
        {d : Data}.
Hypothesis Hses : session num_qubits eavesdropping_enabled t p d.

Lemma length_alice_bits : length (alice_bits d) = Z.to_nat num_qubits.
Proof using Hses. rewrite (ses_alice_bits _ _ _ _ _ Hses). apply length_random_bits. Qed.

Lemma length_alice_bases : length (alice_bases d) = Z.to_nat num_qubits.
Proof using Hses. rewrite (ses_alice_bases _ _ _ _ _ Hses). apply length_random_bits. Qed.

Lemma length_bob_bases : length (bob_bases d) = Z.to_nat num_qubits.
Proof using Hses.
  destruct (ses_bob_bases _ _ _ _ _ Hses) as [q ->]. apply length_random_bits.
Qed.

Lemma length_bob_bits : length (bob_bits d) = Z.to_nat num_qubits.
Proof using Hses. apply (ses_bob_bits_length _ _ _ _ _ Hses). Qed.

Lemma length_correct_bits : length (correct_bits d) = Z.to_nat num_qubits.
Proof using Hses.
  rewrite (ses_correct_bits _ _ _ _ _ Hses).
  apply length_create_correct_bits;
    auto using length_bob_bits, length_alice_bases, length_bob_bases.
Qed.

Lemma alice_bits_binary i b : alice_bits d !! i = Some b → binary b.
Proof using Hses.
  rewrite (ses_alice_bits _ _ _ _ _ Hses). apply random_bits_binary.
Qed.

(** The sifted keys read Alice's and Bob's bits at the matching positions,
    in ascending order. *)
Lemma sifted_keys :
  Forall2 (λ i x, alice_bits d !! i = Some x)
          (matching_positions (alice_bases d) (bob_bases d)) (alice_shared_key d)
  ∧ Forall2 (λ i x, bob_bits d !! i = Some x)
            (matching_positions (alice_bases d) (bob_bases d)) (bob_shared_key d).
Proof using Hses.
  destruct (reconcile_bases_spec (alice_bases d) (bob_bases d)
              (alice_bits d) (bob_bits d)) as (akey & bkey & Hkeys & Ha & Hb).
  - by rewrite length_alice_bases, length_bob_bases.
  - by rewrite length_alice_bits, length_alice_bases.
  - by rewrite length_bob_bits, length_alice_bases.
  - rewrite (ses_keys _ _ _ _ _ Hses) in Hkeys. by injection Hkeys as -> ->.
Qed.

(** A position is kept by the sifting exactly when the correct-bits array
    holds a bit there, and that bit is Bob's. *)
Lemma correct_bits_at i :
  i < Z.to_nat num_qubits →
  ∃ a b v, alice_bases d !! i = Some a ∧ bob_bases d !! i = Some b
           ∧ bob_bits d !! i = Some v ∧ binary v
           ∧ correct_bits d !! i = Some (if (a =? b)%Z then v else (-1)%Z).
Proof using Hses.
  intros Hi.
  destruct (lookup_lt_is_Some_2 (alice_bases d) i) as [a Ha];
    [by rewrite length_alice_bases|].
  destruct (lookup_lt_is_Some_2 (bob_bases d) i) as [b Hb];
    [by rewrite length_bob_bases|].
  destruct (lookup_lt_is_Some_2 (bob_bits d) i) as [v Hv];
    [by rewrite length_bob_bits|].
  exists a, b, v. split_and!; [done..| |].
  - by eapply (ses_bob_bits_binary _ _ _ _ _ Hses).
  - rewrite (ses_correct_bits _ _ _ _ _ Hses).
    by apply lookup_create_correct_bits.
Qed.

Lemma valid_correct_bits_matching i :
  i ∈ valid_indices (correct_bits d)
  ↔ i ∈ matching_positions (alice_bases d) (bob_bases d).
Proof using Hses.
  unfold matching_positions.
  rewrite elem_of_valid_indices, list_elem_of_filter, elem_of_seq,
    length_alice_bases.
  split.
  - intros (c & Hc & Hne).
    assert (i < Z.to_nat num_qubits) as Hi.
    { apply lookup_lt_Some in Hc. by rewrite length_correct_bits in Hc. }
    destruct (correct_bits_at i Hi) as (a & b & v & Ha & Hb & Hv & Hbin & Hc').
    rewrite Ha, Hb. split; [|lia].
    destruct (Z.eqb_spec a b) as [->|Hab]; [done|]. congruence.
  - intros [Heq [_ Hi]]. simpl in Hi.
    destruct (correct_bits_at i Hi) as (a & b & v & Ha & Hb & Hv & Hbin & Hc').
    exists v. rewrite Ha, Hb in Heq. injection Heq as ->.
    rewrite Z.eqb_refl in Hc'. split; [done|].
    destruct Hbin as [-> | ->]; done.
Qed.

Lemma valid_correct_bits_bob i :
  i ∈ valid_indices (correct_bits d) → correct_bits d !! i = bob_bits d !! i.
Proof using Hses.
  intros Hin. pose proof Hin as (c & Hc & Hne)%elem_of_valid_indices.
  assert (i < Z.to_nat num_qubits) as Hi.
  { apply lookup_lt_Some in Hc. by rewrite length_correct_bits in Hc. }
  destruct (correct_bits_at i Hi) as (a & b & v & Ha & Hb & Hv & Hbin & Hc').
  rewrite Hc', Hv. destruct (a =? b)%Z; [done|]. congruence.
Qed.

(** Where the bases agree and Eve, if any, used Alice's basis, Bob holds
    Alice's bit. *)
Lemma undisturbed_matching i :
  i ∈ matching_positions (alice_bases d) (bob_bases d) →
  (∀ eb, eve_bases d = Some eb → eb !! i = alice_bases d !! i) →
  bob_bits d !! i = alice_bits d !! i.
Proof using Hses.
  intros Hin Heve. pose proof (matching_positions_lt _ _ _ Hin) as Hi.
  apply list_elem_of_filter in Hin as [Heq _].
  destruct (lookup_lt_is_Some_2 (alice_bases d) i Hi) as [s Hs].
  destruct (lookup_lt_is_Some_2 (alice_bits d) i) as [b Hb].
  { by rewrite length_alice_bits, <- length_alice_bases. }
  rewrite Hb. apply (ses_undisturbed _ _ _ _ _ Hses i b s); [done..|congruence|].
  intros eb Heb. rewrite <- Hs. by apply Heve.
Qed.

End Session.

(** ** Disclosure, verdicts and the ratio *)

Section Detection.

Context {num_qubits : Z} {eavesdropping_enabled : bool} {t : tape} {p : nat}
        {d : Data}.
Hypothesis Hses : session num_qubits eavesdropping_enabled t p d.

Lemma length_half_correct_bits : length (half_correct_bits d) = Z.to_nat num_qubits.
Proof using Hses. by destruct (ses_half _ _ _ _ _ Hses) as (? & _ & ? & _). Qed.

Lemma length_disclosed :
  length (valid_indices (half_correct_bits d))
  = length (valid_indices (correct_bits d)) / 2.
Proof using Hses.
  destruct (ses_half _ _ _ _ _ Hses) as (selected & Hsel & _ & Hlook).
  by apply length_valid_indices_half with selected.
Qed.

Lemma disclosed_valid i :
  i ∈ valid_indices (half_correct_bits d) →
  i ∈ valid_indices (correct_bits d)
  ∧ half_correct_bits d !! i = correct_bits d !! i.
Proof using Hses.
  destruct (ses_half _ _ _ _ _ Hses) as (selected & Hsel & _ & Hlook).
  destruct Hsel as (_ & _ & Hsub).
  intros Hin.
  apply (elem_of_valid_indices_half (correct_bits d) _ selected) in Hin;
    [|done..].
  split; [by apply Hsub|]. by rewrite Hlook, decide_True.
Qed.

Lemma not_disclosed_sentinel i h :
  half_correct_bits d !! i = Some h →
  i ∉ valid_indices (half_correct_bits d) → h = (-1)%Z.
Proof using Hses.
  intros Hh Hnin. destruct (decide (h = (-1)%Z)) as [|Hne]; [done|].
  destruct Hnin. apply elem_of_valid_indices. by exists h.
Qed.

Lemma length_outcome : length (outcome d) = Z.to_nat num_qubits.
Proof using Hses.
  destruct (create_outcome_spec (correct_bits d) (half_correct_bits d))
    as (out & Hout & Hlen & _).
  { by rewrite length_half_correct_bits, (length_correct_bits Hses). }
  rewrite (ses_outcome _ _ _ _ _ Hses) in Hout. injection Hout as <-.
  by rewrite Hlen, (length_correct_bits Hses).
Qed.

Lemma lookup_outcome i c h :
  correct_bits d !! i = Some c → half_correct_bits d !! i = Some h →
  outcome d !! i = Some (if (h =? -1)%Z then c else (-1)%Z).
Proof using Hses.
  destruct (create_outcome_spec (correct_bits d) (half_correct_bits d))
    as (out & Hout & _ & Hall).
  { by rewrite length_half_correct_bits, (length_correct_bits Hses). }
  rewrite (ses_outcome _ _ _ _ _ Hses) in Hout. injection Hout as <-.
  apply Hall.
Qed.

(** The residual outcome keeps exactly the valid positions that were not
    disclosed, with their bits. *)
Lemma residual_iff i :
  i ∈ valid_indices (outcome d)
  ↔ i ∈ valid_indices (correct_bits d)
    ∧ i ∉ valid_indices (half_correct_bits d).
Proof using Hses.
  split.
  - intros (o & Ho & Hne)%elem_of_valid_indices.
    assert (i < Z.to_nat num_qubits) as Hi.
    { apply lookup_lt_Some in Ho. by rewrite length_outcome in Ho. }
    destruct (lookup_lt_is_Some_2 (correct_bits d) i) as [c Hc];
      [by rewrite (length_correct_bits Hses)|].
    destruct (lookup_lt_is_Some_2 (half_correct_bits d) i) as [h Hh];
      [by rewrite length_half_correct_bits|].
    rewrite (lookup_outcome i c h Hc Hh) in Ho. injection Ho as <-.
    destruct (Z.eqb_spec h (-1)) as [Heq|Hh']; [|done]. split.
    + apply elem_of_valid_indices. by exists c.
    + intros (h' & Hh' & Hne')%elem_of_valid_indices. congruence.
  - intros [(c & Hc & Hne)%elem_of_valid_indices Hnin].
    destruct (lookup_lt_is_Some_2 (half_correct_bits d) i) as [h Hh].
    { apply lookup_lt_Some in Hc. rewrite (length_correct_bits Hses) in Hc.
      by rewrite length_half_correct_bits. }
    apply elem_of_valid_indices. exists c. split; [|done].
    rewrite (lookup_outcome i c h Hc Hh).
    by rewrite (not_disclosed_sentinel i h Hh Hnin).
Qed.

Lemma residual_bits i :
  i ∈ valid_indices (outcome d) → outcome d !! i = correct_bits d !! i.
Proof using Hses.
  intros Hin. pose proof Hin as [Hv Hnd]%residual_iff.
  apply elem_of_valid_indices in Hv as (c & Hc & Hne).
  destruct (lookup_lt_is_Some_2 (half_correct_bits d) i) as [h Hh].
  { apply lookup_lt_Some in Hc. rewrite (length_correct_bits Hses) in Hc.
    by rewrite length_half_correct_bits. }
  rewrite (lookup_outcome i c h Hc Hh), Hc.
  by rewrite (not_disclosed_sentinel i h Hh Hnd).
Qed.

Lemma length_confirmed_by_alice : length (confirmed_by_alice d) = Z.to_nat num_qubits.
Proof using Hses.
  destruct (confirm_by_alice_spec (alice_bits d) (half_correct_bits d))
    as (confirmed & Hconf & Hlen & _).
  { by rewrite length_half_correct_bits, (length_alice_bits Hses). }
  rewrite (ses_confirmed _ _ _ _ _ Hses) in Hconf. injection Hconf as <-.
  by rewrite Hlen, length_half_correct_bits.
Qed.

Lemma lookup_confirmed_by_alice i c :
  confirmed_by_alice d !! i = Some c →
  ∃ h a, half_correct_bits d !! i = Some h ∧ alice_bits d !! i = Some a
         ∧ c = verdict h a.
Proof using Hses.
  intros Hc.
  destruct (confirm_by_alice_spec (alice_bits d) (half_correct_bits d))
    as (confirmed & Hconf & Hlen & Hall).
  { by rewrite length_half_correct_bits, (length_alice_bits Hses). }
  rewrite (ses_confirmed _ _ _ _ _ Hses) in Hconf. injection Hconf as <-.
  assert (i < Z.to_nat num_qubits) as Hi.
  { apply lookup_lt_Some in Hc. by rewrite length_confirmed_by_alice in Hc. }
  destruct (lookup_lt_is_Some_2 (half_correct_bits d) i) as [h Hh];
    [by rewrite length_half_correct_bits|].
  destruct (lookup_lt_is_Some_2 (alice_bits d) i) as [a Ha];
    [by rewrite (length_alice_bits Hses)|].
  exists h, a. split_and!; [done..|].
  rewrite (Hall i h a Hh Ha) in Hc. by injection Hc.
Qed.

(** A discrepancy is a disclosed bit that differs from Alice's. *)
Lemma discrepancy_iff i :
  confirmed_by_alice d !! i = Some "F"%char
  ↔ ∃ h a, half_correct_bits d !! i = Some h ∧ alice_bits d !! i = Some a
           ∧ h ≠ (-1)%Z ∧ h ≠ a.
Proof using Hses.
  split.
  - intros (h & a & Hh & Ha & Hv)%lookup_confirmed_by_alice.
    exists h, a. split_and!; [done..| |]; unfold verdict in Hv.
    + destruct (h =? a)%Z; [done|].
      by destruct (Z.eqb_spec h (-1)).
    + by destruct (Z.eqb_spec h a).
  - intros (h & a & Hh & Ha & Hne & Hne').
    destruct (lookup_lt_is_Some_2 (confirmed_by_alice d) i) as [c Hc].
    { apply lookup_lt_Some in Hh.
      by rewrite length_confirmed_by_alice, <- length_half_correct_bits. }
    destruct (lookup_confirmed_by_alice i c Hc) as (h' & a' & Hh' & Ha' & ->).
    rewrite Hc. f_equal. unfold verdict.
    assert (h' = h) as -> by congruence. assert (a' = a) as -> by congruence.
    destruct (Z.eqb_spec h a); [done|]. by destruct (Z.eqb_spec h (-1)).
Qed.

Lemma count_discrepancies_le : py_count "F" (confirmed_by_alice d) ≤ Z.to_nat num_qubits.
Proof using Hses.
  unfold py_count. rewrite <- length_confirmed_by_alice. apply length_filter.
Qed.

(** No disclosed bit differs from Alice's when every disclosed position
    reached Bob undisturbed. *)
Lemma no_discrepancy :
  (∀ i, i ∈ valid_indices (half_correct_bits d) →
        bob_bits d !! i = alice_bits d !! i) →
  py_count "F" (confirmed_by_alice d) = 0.
Proof using Hses.
  intros Hsame. unfold py_count.
  rewrite filter_none; [done|].
  apply Forall_lookup. intros i c Hc ->.
  apply discrepancy_iff in Hc as (h & a & Hh & Ha & Hne & Hne').
  assert (i ∈ valid_indices (half_correct_bits d)) as Hin.
  { apply elem_of_valid_indices. by exists h. }
  destruct (disclosed_valid i Hin) as [Hv Heq].
  rewrite (valid_correct_bits_bob Hses i Hv), (Hsame i Hin) in Heq.
  congruence.
Qed.

End Detection.

Lemma ratio_bounds (c : nat) (num_qubits : Z) :
  (0 < num_qubits)%Z → (Z.of_nat c ≤ num_qubits)%Z →
  (0 <= inject_Z (Z.of_nat c) / inject_Z num_qubits * 100)%Q
  ∧ (inject_Z (Z.of_nat c) / inject_Z num_qubits * 100 <= 100)%Q.
Proof.
  intros Hpos Hle. destruct num_qubits as [|q|q]; [lia| |lia].
  unfold Qle, Qdiv, Qmult, Qinv, inject_Z. simpl. lia.
Qed.

Lemma ratio_zero (num_qubits : Z) :
  (inject_Z (Z.of_nat 0) / inject_Z num_qubits * 100 == 0)%Q
  ∧ Qpositive (inject_Z (Z.of_nat 0) / inject_Z num_qubits * 100)%Q = false.
Proof. split; [by unfold Qeq|done]. Qed.

Lemma session_ratio num_qubits (eavesdropping_enabled : bool) t p d :
  session num_qubits eavesdropping_enabled t p d →
  (num_qubits ≠ 0)%Z
  ∧ eavesdropping_ratio d
    = (inject_Z (Z.of_nat (py_count "F" (confirmed_by_alice d)))
       / inject_Z num_qubits * 100)%Q.
Proof.
  intros Hses. pose proof (ses_ratio _ _ _ _ _ Hses) as Hratio.
  unfold calculate_eavesdropping_ratio in Hratio.
  destruct (Z.eqb_spec num_qubits 0) as [|Hne]; [done|].
  by injection Hratio as <-.
Qed.

(** A session in which every matching position reached Bob undisturbed has
    ratio 0 and is not reported. *)
Lemma undisturbed_ratio_zero num_qubits (eavesdropping_enabled : bool) t p d :
  session num_qubits eavesdropping_enabled t p d →
  (∀ i eb, eve_bases d = Some eb → eb !! i = alice_bases d !! i) →
  (eavesdropping_ratio d == 0)%Q ∧ Qpositive (eavesdropping_ratio d) = false.
Proof.
  intros Hses Heve. destruct (session_ratio _ _ _ _ _ Hses) as [_ ->].
  rewrite (no_discrepancy Hses); [apply ratio_zero|].
  intros i [Hin _]%(disclosed_valid Hses).
  apply (undisturbed_matching Hses).
  - by apply (valid_correct_bits_matching Hses).
  - intros eb. apply Heve.
Qed.

(** ** The harness *)

Lemma np_random_choice1_flag t p :
  ∃ flag : bool, np_random_choice1 [true; false] t p = Ok (flag, S p).
Proof.
  unfold np_random_choice1, bind, draw, lift. simpl length.
  pose proof (Z.mod_pos_bound (t p) 2) as Hmod.
  destruct (Z.to_nat (t p `mod` Z.of_nat 2)) as [|[|k]] eqn:Hk; simpl;
    [by exists true|by exists false|lia].
Qed.

Lemma tally_total r enabled detected : total (tally r enabled detected) = S (total r).
Proof. unfold total. destruct enabled, detected; simpl; lia. Qed.

Lemma tally_false_detected r enabled :
  false_detected (tally r enabled false) = false_detected r.
Proof. by destruct enabled. Qed.

Lemma tally_false_detected_enabled r detected :
  false_detected (tally r true detected) = false_detected r.
Proof. by destruct detected. Qed.

Lemma run_tests_loop_spec num_qubits (k : nat) :
  (0 < num_qubits)%Z →
  ∀ results t p,
    ∃ r p', run_tests_loop num_qubits k results t p = Ok (r, p')
            ∧ total r = total results + k
            ∧ false_detected r = false_detected results.
Proof.
  intros Hpos. induction k as [|k IH]; intros results t p; simpl.
  - exists results, p. unfold ret. split_and!; [done|lia|done].
  - destruct (np_random_choice1_flag t p) as [flag Hflag].
    rewrite (bind_Ok _ _ _ _ _ _ Hflag).
    destruct (collect_data_session num_qubits flag t (S p) Hpos)
      as (d & p1 & Hrun & Hses).
    rewrite (bind_Ok _ _ _ _ _ _ Hrun).
    destruct (IH (tally results flag (Qpositive (eavesdropping_ratio d))) t p1)
      as (r & p' & Hloop & Htotal & Hfalse).
    exists r, p'. rewrite Hloop, Htotal, Hfalse, tally_total.
    split_and!; [done|lia|].
    destruct flag; [apply tally_false_detected_enabled|].
    assert (Qpositive (eavesdropping_ratio d) = false) as ->.
    { apply (undisturbed_ratio_zero _ _ _ _ _ Hses).
      intros i eb. by rewrite (ses_eve_bases _ _ _ _ _ Hses). }
    apply tally_false_detected.
Qed.

(** * The claims *)

(** C1.  Measuring a qubit prepared as [(b, s)] in the same basis [s]
    returns [b] on every call, whatever the tape holds; hence wherever the
    basis drawn by the measuring party (Bob, or Eve when she intercepts)
    equals the basis of preparation, the bit read is the bit prepared: Bob's
    bit is Alice's, and the circuit Eve resends is the one she received. *)
Theorem matching_basis_measurement (b s num_qubits : Z) (bits bases : list Z)
    (t : tape) (p : nat) :
  binary b → binary s → (0 ≤ num_qubits)%Z →
  length bits = Z.to_nat num_qubits → length bases = Z.to_nat num_qubits →
  Forall binary bits → Forall binary bases →
  measure_and_read (measured_circuit b s s) t p = Ok (b, p + shots)
  ∧ ∃ circuits,
      prepare_qubits num_qubits bits bases = Ok circuits
      ∧ (∃ bob_bases bob_bits p',
           bob_measures circuits num_qubits t p = Ok ((bob_bases, bob_bits), p')
           ∧ ∀ i, bob_bases !! i = bases !! i → bob_bits !! i = bits !! i)
      ∧ (∃ eve_bases tampered p',
           eve_intercepts circuits num_qubits t p = Ok ((eve_bases, tampered), p')
           ∧ ∀ i, eve_bases !! i = bases !! i → tampered !! i = circuits !! i).
Proof.
  intros Hb Hs Hpos Hbits Hbases Hbin Hbin'.
  split; [by apply measure_matching|].
  destruct (prepare_qubits_spec num_qubits bits bases Hbits Hbases)
    as (circuits & Hprep & Hlen & Hcirc).
  assert (∀ i, i < Z.to_nat num_qubits →
            ∃ b' s', bits !! i = Some b' ∧ bases !! i = Some s'
                     ∧ binary b' ∧ binary s'
                     ∧ circuits !! i = Some (prepare_one b' s')) as Hat.
  { intros i Hi.
    destruct (lookup_lt_is_Some_2 bits i) as [b' Hb']; [lia|].
    destruct (lookup_lt_is_Some_2 bases i) as [s' Hs']; [lia|].
    exists b', s'. split_and!; [done..| | |by apply Hcirc].
    - by apply (proj1 (Forall_lookup _ _) Hbin i).
    - by apply (proj1 (Forall_lookup _ _) Hbin' i). }
  exists circuits. split_and!; [done|..].
  - destruct (bob_measures_spec circuits num_qubits t p Hpos Hlen)
      as (bob_bits & Hrun & Hlen' & Hrecv).
    eexists _, bob_bits, _. split; [done|]. intros i Heq.
    destruct (decide (i < Z.to_nat num_qubits)) as [Hi|Hi].
    + destruct (Hat i Hi) as (b' & s' & Hb' & Hs' & Hbb & Hbs & Hqc).
      destruct (Hrecv i _ Hqc) as (v & Hv & _ & Hsame).
      rewrite Hv, Hb'. f_equal. apply (Hsame b' s'); [done..|congruence].
    + by rewrite !lookup_ge_None_2 by lia.
  - destruct (eve_intercepts_spec circuits num_qubits t p Hpos Hlen)
      as (tampered & Hrun & Hlen' & Hres).
    eexists _, tampered, _. split; [done|]. intros i Heq.
    destruct (decide (i < Z.to_nat num_qubits)) as [Hi|Hi].
    + destruct (Hat i Hi) as (b' & s' & Hb' & Hs' & Hbb & Hbs & Hqc).
      destruct (Hres i _ Hqc) as (qc' & Hqc' & e & m & He & _ & _ & -> & Hm).
      assert (e = s') as -> by congruence.
      by rewrite Hqc', Hqc, (Hm b' Hbb eq_refl).
    + by rewrite !lookup_ge_None_2 by lia.
Qed.

(** C3.  In every session the sifted keys are Alice's bits and Bob's bits
    read at the positions where the two bases agree, in ascending order of
    position, so both keys have as many entries as there are such
    positions. *)
Theorem sifted_keys_at_matching_positions (num_qubits : Z)
    (eavesdropping_enabled : bool) (t : tape) (p : nat) :
  (0 < num_qubits)%Z →
  ∃ d p',
    collect_data num_qubits eavesdropping_enabled t p = Ok (d, p')
    ∧ Forall2 (λ i x, alice_bits d !! i = Some x)
              (matching_positions (alice_bases d) (bob_bases d))
              (alice_shared_key d)
    ∧ Forall2 (λ i x, bob_bits d !! i = Some x)
              (matching_positions (alice_bases d) (bob_bases d))
              (bob_shared_key d)
    ∧ length (alice_shared_key d)
      = length (matching_positions (alice_bases d) (bob_bases d))
    ∧ length (bob_shared_key d)
      = length (matching_positions (alice_bases d) (bob_bases d)).
Proof.
  intros Hpos.
  destruct (collect_data_session num_qubits eavesdropping_enabled t p Hpos)
    as (d & p' & Hrun & Hses).
  destruct (sifted_keys Hses) as [Ha Hb].
  exists d, p'. split_and!; [done..| |].
  - symmetry. by eapply Forall2_length.
  - symmetry. by eapply Forall2_length.
Qed.

Lemma Forall2_agree {A : Type} (P Q : nat → A → Prop) (l : list nat) (ka kb : list A) :
  Forall2 P l ka → Forall2 Q l kb →
  (∀ i x y, i ∈ l → P i x → Q i y → x = y) → ka = kb.
Proof.
  intros HP. revert kb. induction HP as [|i x l ka Hx _ IH]; intros kb HQ Hsame.
  - by inversion HQ.
  - inversion HQ as [|? y ? kb' Hy HQ']; subst. f_equal.
    + apply (Hsame i); [apply list_elem_of_here|done..].
    + apply IH; [done|]. intros j ? ? Hj. apply Hsame.
      by apply list_elem_of_further.
Qed.

(** C4.  With eavesdropping disabled every session returns sifted keys that
    are equal, entry by entry. *)
Theorem no_eavesdropping_keys_agree (num_qubits : Z) (t : tape) (p : nat) :
  (0 < num_qubits)%Z →
  ∃ d p',
    collect_data num_qubits false t p = Ok (d, p')
    ∧ alice_shared_key d = bob_shared_key d
    ∧ ∀ i, alice_shared_key d !! i = bob_shared_key d !! i.
Proof.
  intros Hpos.
  destruct (collect_data_session num_qubits false t p Hpos)
    as (d & p' & Hrun & Hses).
  destruct (sifted_keys Hses) as [Ha Hb].
  assert (alice_shared_key d = bob_shared_key d) as Heq.
  { apply (Forall2_agree _ _ _ _ _ Ha Hb). intros i x y Hi Hx Hy.
    rewrite (undisturbed_matching Hses i Hi) in Hy; [congruence|].
    intros eb. by rewrite (ses_eve_bases _ _ _ _ _ Hses). }
  exists d, p'. split_and!; [done..|]. intros i. by rewrite Heq.
Qed.


(** C6.  In every session the eavesdropping ratio lies between 0 and 100.
    With eavesdropping disabled it is 0, so the rule [ratio > 0] does not
    report the session, and the harness never counts a detection in its
    "Eavesdropping False" column. *)
Theorem eavesdropping_ratio_bounds (num_qubits : Z)
    (eavesdropping_enabled : bool) (t : tape) (p : nat) :
  (0 < num_qubits)%Z →
  (∃ d p',
     collect_data num_qubits eavesdropping_enabled t p = Ok (d, p')
     ∧ (0 <= eavesdropping_ratio d)%Q
     ∧ (eavesdropping_ratio d <= 100)%Q
     ∧ (eavesdropping_enabled = false →
        (eavesdropping_ratio d == 0)%Q
        ∧ Qpositive (eavesdropping_ratio d) = false))
  ∧ ∀ num_tests,
      ∃ r p', run_tests num_qubits num_tests t p = Ok (r, p')
              ∧ false_detected r = 0.
Proof.
  intros Hpos. split.
  - destruct (collect_data_session num_qubits eavesdropping_enabled t p Hpos)
      as (d & p' & Hrun & Hses).
    exists d, p'. split; [done|].
    destruct (session_ratio _ _ _ _ _ Hses) as [_ Hratio].
    pose proof (count_discrepancies_le Hses) as Hle.
    destruct (ratio_bounds (py_count "F" (confirmed_by_alice d)) num_qubits)
      as [Hlo Hhi]; [done|lia|].
    rewrite <- Hratio in Hlo, Hhi. split_and!; [done..|].
    intros ->. apply (undisturbed_ratio_zero _ _ _ _ _ Hses).
    intros i eb. by rewrite (ses_eve_bases _ _ _ _ _ Hses).
  - intros num_tests. unfold run_tests.
    destruct (run_tests_loop_spec num_qubits (Z.to_nat num_tests) Hpos
                {| true_detected := 0; true_non_detected := 0;
                   false_detected := 0; false_non_detected := 0 |} t p)
      as (r & p' & Hrun & _ & Hfalse).
    by exists r, p'.
Qed.

Lemma NoDup_matching_positions (a b : list Z) : NoDup (matching_positions a b).
Proof. apply NoDup_filter, NoDup_seq. Qed.




(** C9, as the code has it.  A negative [num_qubits] is rejected by numpy's
    first draw and [num_qubits = 0] ends in a division by zero at the ratio:
    either way no record is returned.  A non-positive [num_tests] is not
    rejected: [run_tests] runs no session, reads nothing from the tape and
    yields the table of zeros. *)
Theorem non_positive_configuration (num_qubits num_qubits' num_tests : Z)
    (eavesdropping_enabled : bool) (t : tape) (p : nat) :
  (num_qubits ≤ 0)%Z → (num_tests ≤ 0)%Z →
  collect_data num_qubits eavesdropping_enabled t p
  = Err (if (num_qubits <? 0)%Z then ValueError else ZeroDivisionError)
  ∧ run_tests num_qubits' num_tests t p = Ok (no_results, p).
Proof.
  intros Hq Htests. split.
  - destruct (Z.ltb_spec num_qubits 0) as [Hneg|Hzero].
    + by apply collect_data_negative.
    + assert (num_qubits = 0%Z) as -> by lia. apply collect_data_zero.
  - unfold run_tests. by replace (Z.to_nat num_tests) with 0 by lia.
Qed.

(** C9 fails as stated: with [num_tests = 0], or negative, the harness
    returns its table instead of failing. *)
Lemma invalid_configuration_counterexample :
  run_tests 32 0 (tape_of_list []) 0 = Ok (no_results, 0)
  ∧ run_tests 32 (-3) (tape_of_list []) 0 = Ok (no_results, 0)
  ∧ ¬ (∀ num_qubits num_tests t p, (num_tests ≤ 0)%Z →
         ∃ e, run_tests num_qubits num_tests t p = Err e).
Proof.
  split_and!; [done..|]. intros Hclaim.
  destruct (Hclaim 32%Z 0%Z (tape_of_list []) 0) as [e He]; [done|].
  done.
Qed.

(** C10.  An enabled eavesdropper can go undetected: on the tape of zeros
    Eve draws Alice's basis at every position, the session's ratio is 0 and
    the rule [ratio > 0] does not report it. *)
Theorem eavesdropping_can_go_undetected (num_qubits : Z) :
  (0 < num_qubits)%Z →
  ∃ t d p',
    collect_data num_qubits true t 0 = Ok (d, p')
    ∧ eve_bases d = Some (alice_bases d)
    ∧ (eavesdropping_ratio d == 0)%Q
    ∧ Qpositive (eavesdropping_ratio d) = false.
Proof.
  intros Hpos.
  destruct (collect_data_session num_qubits true (λ _, 0%Z) 0 Hpos)
    as (d & p' & Hrun & Hses).
  assert (eve_bases d = Some (alice_bases d)) as Heve.
  { by rewrite (ses_eve_bases _ _ _ _ _ Hses), (ses_alice_bases _ _ _ _ _ Hses). }
  exists (λ _, 0%Z), d, p'. split_and!; [done..| |].
  - apply (undisturbed_ratio_zero _ _ _ _ _ Hses).
    intros i eb. rewrite Heve. by intros [= <-].
  - apply (undisturbed_ratio_zero _ _ _ _ _ Hses).
    intros i eb. rewrite Heve. by intros [= <-].
Qed.

(** Eve measures position 0 in the wrong basis, and both she and Bob happen
    to read Alice's bit: the keys agree and the ratio is 0. *)
Example undetected_by_luck :
  ∃ d p',
    collect_data 4 true lucky_tape 0 = Ok (d, p')
    ∧ alice_bases d = [0; 1; 0; 1]%Z
    ∧ eve_bases d = Some [1; 1; 0; 1]%Z
    ∧ alice_shared_key d = [1; 0; 1; 1]%Z
    ∧ bob_shared_key d = [1; 0; 1; 1]%Z
    ∧ (eavesdropping_ratio d == 0)%Q
    ∧ Qpositive (eavesdropping_ratio d) = false.
Proof. eexists _, _. split; [by vm_compute|]. by vm_compute. Qed.

(** Eve disturbs position 0, Bob's key differs from Alice's there, but the
    positions disclosed are 1 and 2: the ratio is 0 all the same. *)
Example undetected_disturbance :
  ∃ d p',
    collect_data 4 true unsampled_tape 0 = Ok (d, p')
    ∧ alice_shared_key d = [1; 0; 1; 1]%Z
    ∧ bob_shared_key d = [0; 0; 1; 1]%Z
    ∧ valid_indices (half_correct_bits d) = [1; 2]
    ∧ confirmed_by_alice d = [" "; "T"; "T"; " "]%char
    ∧ (eavesdropping_ratio d == 0)%Q
    ∧ Qpositive (eavesdropping_ratio d) = false.
Proof. eexists _, _. split; [by vm_compute|]. by vm_compute. Qed.

(** ** Mismatched bases

    With distinct bases the qubit is measured in a superposition: each shot
    reads a cell of the tape, and the result is the majority of the shots.
    The result is a bit, it does not depend on the prepared bit, and both
    bits occur. *)

Lemma run_shot_mismatched b b' s s' r :
  binary b → binary b' → binary s → binary s' → s ≠ s' →
  run_shot (measured_circuit b s s' ++ [Measure]) Ket0 0%Z r
  = run_shot (measured_circuit b' s s' ++ [Measure]) Ket0 0%Z r.
Proof. by intros [-> | ->] [-> | ->] [-> | ->] [-> | ->]. Qed.

Lemma measure_mismatched_independent b b' s s' t p :
  binary b → binary b' → binary s → binary s' → s ≠ s' →
  measure_and_read (measured_circuit b s s') t p
  = measure_and_read (measured_circuit b' s s') t p.
Proof.
  intros Hb Hb' Hs Hs' Hne. rewrite !measure_and_read_unfold.
  assert (shot_outcomes (measured_circuit b s s') t p
          = shot_outcomes (measured_circuit b' s s') t p) as ->; [|done].
  unfold shot_outcomes. apply map_ext. intros r. by apply run_shot_mismatched.
Qed.

Lemma measure_mismatched_both_outcomes b s s' :
  binary b → binary s → binary s' → s ≠ s' →
  measure_and_read (measured_circuit b s s') (λ _, 0%Z) 0 = Ok (0%Z, shots)
  ∧ measure_and_read (measured_circuit b s s') (λ _, 1%Z) 0 = Ok (1%Z, shots).
Proof.
  intros Hb Hs Hs' Hne.
  split; apply measure_and_read_certain; auto using binary_0, binary_1;
    intros _; by destruct Hb as [-> | ->], Hs as [-> | ->], Hs' as [-> | ->].
Qed.

(** ** The scenarios of the specification *)

(** Alice's bits 1,0,1,1 in bases 0,1,0,1; Bob's bases 0,1,1,1; no Eve. *)
Example scenario_without_eve :
  ∃ d p',
    collect_data 4 false (tape_of_list [1; 0; 1; 1; 0; 1; 0; 1; 0; 1; 1; 1]%Z) 0
    = Ok (d, p')
    ∧ matching_positions (alice_bases d) (bob_bases d) = [0; 1; 3]
    ∧ alice_shared_key d = [1; 0; 1]%Z
    ∧ bob_shared_key d = [1; 0; 1]%Z.
Proof. eexists _, _. split; [by vm_compute|]. by vm_compute. Qed.

(** The same with Eve in bases 1,1,0,0: at position 0 she reads 0 where
    Alice sent 1, Bob reads Eve's bit, position 0 is disclosed, and the one
    discrepancy among one disclosed bit gives the ratio 1/4 * 100. *)
Example scenario_with_eve :
  ∃ d p',
    collect_data 4 true (tape_of_list [1; 0; 1; 1; 0; 1; 0; 1; 1; 1; 0; 0]%Z) 0
    = Ok (d, p')
    ∧ bob_bits d !! 0 = Some 0%Z
    ∧ confirmed_by_alice d = ["F"; " "; " "; " "]%char
    ∧ (eavesdropping_ratio d == 25)%Q
    ∧ Qpositive (eavesdropping_ratio d) = true.
Proof. eexists _, _. split; [by vm_compute|]. by vm_compute. Qed.

(** ** Instances *)

Lemma matching_basis_measurement_witness :
  measure_and_read (measured_circuit 1 1 1) (tape_of_list [0; 1; 1; 1]%Z) 0
  = Ok (1%Z, 0 + shots)
  ∧ ∃ circuits,
      prepare_qubits 4 [1; 0; 1; 1]%Z [0; 1; 0; 1]%Z = Ok circuits
      ∧ (∃ bob_bases bob_bits p',
           bob_measures circuits 4 (tape_of_list [0; 1; 1; 1]%Z) 0
           = Ok ((bob_bases, bob_bits), p')
           ∧ ∀ i, bob_bases !! i = [0; 1; 0; 1]%Z !! i
                  → bob_bits !! i = [1; 0; 1; 1]%Z !! i)
      ∧ (∃ eve_bases tampered p',
           eve_intercepts circuits 4 (tape_of_list [0; 1; 1; 1]%Z) 0
           = Ok ((eve_bases, tampered), p')
           ∧ ∀ i, eve_bases !! i = [0; 1; 0; 1]%Z !! i
                  → tampered !! i = circuits !! i).
Proof.
  apply (matching_basis_measurement 1 1 4 [1; 0; 1; 1]%Z [0; 1; 0; 1]%Z
           (tape_of_list [0; 1; 1; 1]%Z) 0).
  - by right.
  - by right.
  - lia.
  - reflexivity.
  - reflexivity.
  - repeat (constructor; [first [by left|by right]|]). constructor.
  - repeat (constructor; [first [by left|by right]|]). constructor.
Defined.

Lemma sifted_keys_at_matching_positions_witness :
  (0 < 4)%Z
  ∧ ∃ d p',
      collect_data 4 false (tape_of_list [1; 0; 1; 1; 0; 1; 0; 1; 0; 1; 1; 1]%Z) 0
      = Ok (d, p')
      ∧ Forall2 (λ i x, alice_bits d !! i = Some x)
                (matching_positions (alice_bases d) (bob_bases d))
                (alice_shared_key d)
      ∧ Forall2 (λ i x, bob_bits d !! i = Some x)
                (matching_positions (alice_bases d) (bob_bases d))
                (bob_shared_key d)
      ∧ length (alice_shared_key d)
        = length (matching_positions (alice_bases d) (bob_bases d))
      ∧ length (bob_shared_key d)
        = length (matching_positions (alice_bases d) (bob_bases d)).
Proof.
  split; [reflexivity|].
  apply (sifted_keys_at_matching_positions 4 false
           (tape_of_list [1; 0; 1; 1; 0; 1; 0; 1; 0; 1; 1; 1]%Z) 0).
  reflexivity.
Defined.

Lemma no_eavesdropping_keys_agree_witness :
  (0 < 4)%Z
  ∧ ∃ d p',
      collect_data 4 false (tape_of_list [1; 0; 1; 1; 0; 1; 0; 1; 0; 1; 1; 1]%Z) 0
      = Ok (d, p')
      ∧ alice_shared_key d = bob_shared_key d
      ∧ ∀ i, alice_shared_key d !! i = bob_shared_key d !! i.
Proof.
  split; [reflexivity|].
  apply (no_eavesdropping_keys_agree 4
           (tape_of_list [1; 0; 1; 1; 0; 1; 0; 1; 0; 1; 1; 1]%Z) 0).
  reflexivity.
Defined.


Lemma eavesdropping_ratio_bounds_witness :
  (0 < 4)%Z
  ∧ (∃ d p',
       collect_data 4 true (tape_of_list [1; 0; 1; 1; 0; 1; 0; 1; 1; 1; 0; 0]%Z) 0
       = Ok (d, p')
       ∧ (0 <= eavesdropping_ratio d)%Q
       ∧ (eavesdropping_ratio d <= 100)%Q)
  ∧ ∃ r p',
      run_tests 4 3 (tape_of_list [1; 0; 1; 1; 0; 1; 0; 1; 1; 1; 0; 0]%Z) 0
      = Ok (r, p')
      ∧ false_detected r = 0.
Proof.
  split; [reflexivity|].
  destruct (eavesdropping_ratio_bounds 4 true
              (tape_of_list [1; 0; 1; 1; 0; 1; 0; 1; 1; 1; 0; 0]%Z) 0)
    as [(d & p' & Hrun & Hlo & Hhi & _) Htests]; [reflexivity|].
  split; [|exact (Htests 3%Z)].
  exists d, p'. split; [exact Hrun|]. split; [exact Hlo|exact Hhi].
Defined.



Lemma non_positive_configuration_witness :
  (0 ≤ 0)%Z ∧ (-2 ≤ 0)%Z
  ∧ collect_data 0 true (tape_of_list [1; 0]%Z) 0
    = Err (if (0 <? 0)%Z then ValueError else ZeroDivisionError)
  ∧ run_tests 32 (-2) (tape_of_list [1; 0]%Z) 0 = Ok (no_results, 0).
Proof.
  split; [lia|]. split; [lia|].
  apply (non_positive_configuration 0 32 (-2) true (tape_of_list [1; 0]%Z) 0); lia.
Defined.

Lemma eavesdropping_can_go_undetected_witness :
  (0 < 32)%Z
  ∧ ∃ t d p',
      collect_data 32 true t 0 = Ok (d, p')
      ∧ eve_bases d = Some (alice_bases d)
      ∧ (eavesdropping_ratio d == 0)%Q
      ∧ Qpositive (eavesdropping_ratio d) = false.
Proof.
  split; [reflexivity|]. apply (eavesdropping_can_go_undetected 32). reflexivity.
Defined.

(** * Further properties of the code *)

(** ** The record of a session *)


Lemma session_bob_bits_Forall_binary num_qubits (eavesdropping_enabled : bool)
    t p d :
  session num_qubits eavesdropping_enabled t p d → Forall binary (bob_bits d).
Proof.
  intros Hses. apply Forall_lookup.
  apply (ses_bob_bits_binary _ _ _ _ _ Hses).
Qed.



(** The marker array holds "K" at the positions whose bases agree and a
    blank at every other position. *)
Theorem correct_bases_mark_matching (num_qubits : Z)
    (eavesdropping_enabled : bool) (t : tape) (p : nat) :
  (0 < num_qubits)%Z →
  ∃ d p',
    collect_data num_qubits eavesdropping_enabled t p = Ok (d, p')
    ∧ ∀ i, i < Z.to_nat num_qubits →
           correct_bases d !! i
           = Some (if decide (i ∈ matching_positions (alice_bases d) (bob_bases d))
                   then "K"%char else " "%char).
Proof.
  intros Hpos.
  destruct (collect_data_session num_qubits eavesdropping_enabled t p Hpos)
    as (d & p' & Hrun & Hses).
  exists d, p'. split; [done|]. intros i Hi.
  pose proof (length_alice_bases Hses) as Hla.
  pose proof (length_bob_bases Hses) as Hlb.
  rewrite (ses_correct_bases _ _ _ _ _ Hses). unfold format_correct_bases.
  rewrite list_lookup_fmap.
  destruct (lookup_lt_is_Some_2 (zip_with Z.eqb (alice_bases d) (bob_bases d)) i)
    as [m Hm].
  { rewrite length_zip_with_l_eq; lia. }
  rewrite Hm. simpl. f_equal.
  assert (m = true ↔ i ∈ matching_positions (alice_bases d) (bob_bases d)) as Hiff.
  { unfold matching_positions. rewrite list_elem_of_filter, elem_of_seq.
    rewrite <- (lookup_eqb_mask (alice_bases d) (bob_bases d) i) by lia.
    rewrite Hm. split; [intros ->; split; [done|lia]|by intros [[= ->] _]]. }
  destruct (decide (i ∈ _)) as [Hin|Hnin].
  - by rewrite (proj2 Hiff Hin).
  - destruct m; [|done]. by destruct Hnin; apply Hiff.
Qed.

(** ** The correct bits and Bob's key *)

Lemma np_take_correct_bits (bbits a b pre : list Z) :
  length bbits = length a → length a = length b → Forall binary bbits →
  np_take (pre ++ bbits) (np_where (length pre) (zip_with Z.eqb a b))
  = Ok (filter (λ v, v ≠ (-1)%Z) (create_correct_bits bbits (zip_with Z.eqb a b))).
Proof.
  revert a b pre. induction bbits as [|v bbits IH]; intros a b pre Ha Hb Hbin.
  - destruct a; [|done]. by destruct b.
  - destruct a as [|x a]; [done|]. destruct b as [|y b]; [done|].
    simpl in Ha, Hb. apply Forall_cons in Hbin as [Hv Hbin].
    specialize (IH a b (pre ++ [v])).
    rewrite <- app_assoc, length_app in IH. simpl in IH.
    rewrite Nat.add_1_r in IH. specialize (IH ltac:(lia) ltac:(lia) Hbin).
    unfold create_correct_bits in *. simpl.
    destruct (x =? y)%Z; simpl.
    + rewrite (index_Ok _ _ v) by by apply list_lookup_middle.
      simpl. rewrite IH. simpl. rewrite filter_cons_True; [done|].
      destruct Hv as [-> | ->]; done.
    + rewrite IH. by rewrite filter_cons_False by (intros Hne; by apply Hne).
Qed.

(** Bob's sifted key can be read off the correct-bits array: it is the array
    with the sentinels left out. *)
Theorem correct_bits_hold_bob_key (num_qubits : Z)
    (eavesdropping_enabled : bool) (t : tape) (p : nat) :
  (0 < num_qubits)%Z →
  ∃ d p',
    collect_data num_qubits eavesdropping_enabled t p = Ok (d, p')
    ∧ filter (λ v, v ≠ (-1)%Z) (correct_bits d) = bob_shared_key d.
Proof.
  intros Hpos.
  destruct (collect_data_session num_qubits eavesdropping_enabled t p Hpos)
    as (d & p' & Hrun & Hses).
  exists d, p'. split; [done|].
  pose proof (ses_keys _ _ _ _ _ Hses) as Hkeys. unfold reconcile_bases in Hkeys.
  rewrite np_eq_Ok in Hkeys
    by by rewrite (length_alice_bases Hses), (length_bob_bases Hses).
  simpl in Hkeys.
  destruct (np_take (alice_bits d) _) as [akey|e]; [simpl in Hkeys|done].
  pose proof (np_take_correct_bits (bob_bits d) (alice_bases d) (bob_bases d) [])
    as Htake.
  simpl in Htake. rewrite Htake in Hkeys.
  - simpl in Hkeys. injection Hkeys as _ <-.
    by rewrite (ses_correct_bits _ _ _ _ _ Hses).
  - by rewrite (length_bob_bits Hses), (length_alice_bases Hses).
  - by rewrite (length_alice_bases Hses), (length_bob_bases Hses).
  - by apply session_bob_bits_Forall_binary with num_qubits
      eavesdropping_enabled t p.
Qed.

(** ** Counting verdicts *)

Lemma length_filter_zip_seq {A : Type} (P : A → Prop)
    `{!∀ x, Decision (P x), !∀ ib : nat * A, Decision (P ib.2)}
    (l : list A) (i0 : nat) :
  length (filter (λ ib : nat * A, P ib.2) (zip (seq i0 (length l)) l))
  = length (filter P l).
Proof.
  revert i0. induction l as [|x l IH]; intros i0; [done|]. simpl.
  destruct (decide (P x)) as [HP|HP].
  - rewrite !filter_cons_True by done. simpl. by rewrite IH.
  - by rewrite !filter_cons_False, IH by done.
Qed.

Lemma length_valid_indices (bits : list Z) :
  length (valid_indices bits) = length (filter (λ v, v ≠ (-1)%Z) bits).
Proof.
  unfold valid_indices, enumerate. rewrite length_fmap.
  apply (length_filter_zip_seq (λ v, v ≠ (-1)%Z)).
Qed.

Lemma length_filter_Forall2 {A B : Type} (P : A → Prop) (Q : B → Prop)
    `{!∀ x, Decision (P x), !∀ y, Decision (Q y)} (l : list A) (k : list B) :
  Forall2 (λ x y, P x ↔ Q y) l k → length (filter P l) = length (filter Q k).
Proof.
  induction 1 as [|x y l k Hxy _ IH]; [done|].
  destruct (decide (P x)) as [HP|HP].
  - rewrite !filter_cons_True; [simpl; by rewrite IH|by apply Hxy|done].
  - rewrite !filter_cons_False; [done| |done]. intros HQ. by apply HP, Hxy.
Qed.

Lemma length_filter_complement {A : Type} (P : A → Prop) `{!∀ x, Decision (P x)}
    (l : list A) :
  length (filter P l) + length (filter (λ x, ¬ P x) l) = length l.
Proof.
  induction l as [|x l IH]; [done|]. destruct (decide (P x)) as [HP|HP].
  - rewrite filter_cons_True, filter_cons_False by tauto. simpl. lia.
  - rewrite filter_cons_False, filter_cons_True by done. simpl. lia.
Qed.

Lemma verdict_cases h a :
  verdict h a = "T"%char ∨ verdict h a = "F"%char ∨ verdict h a = " "%char.
Proof.
  unfold verdict. destruct (h =? a)%Z; [by left|].
  destruct (negb _); [right; by left|right; by right].
Qed.

Lemma verdict_blank h a : binary a → verdict h a = " "%char ↔ h = (-1)%Z.
Proof.
  intros Ha. unfold verdict.
  destruct (Z.eqb_spec h a) as [->|Hne].
  - split; [done|]. by destruct Ha as [-> | ->].
  - by destruct (Z.eqb_spec h (-1)).
Qed.

Lemma count_verdicts (l : list ascii) :
  Forall (λ c, c = "T"%char ∨ c = "F"%char ∨ c = " "%char) l →
  py_count "T" l + py_count "F" l = length (filter (λ c, c ≠ " "%char) l).
Proof.
  unfold py_count. induction 1 as [|c l [-> | [-> | ->]] _ IH]; [done|..].
  - rewrite (filter_cons_True (λ y, y = "T"%char)) by done.
    rewrite (filter_cons_False (λ y, y = "F"%char)) by done.
    rewrite (filter_cons_True (λ c, c ≠ " "%char)) by done. simpl. lia.
  - rewrite (filter_cons_False (λ y, y = "T"%char)) by done.
    rewrite (filter_cons_True (λ y, y = "F"%char)) by done.
    rewrite (filter_cons_True (λ c, c ≠ " "%char)) by done. simpl. lia.
  - rewrite (filter_cons_False (λ y, y = "T"%char)) by done.
    rewrite (filter_cons_False (λ y, y = "F"%char)) by done.
    by rewrite (filter_cons_False (λ c, c ≠ " "%char)) by (intros Hne; by apply Hne).
Qed.

Lemma session_length_valid_matching num_qubits (eavesdropping_enabled : bool)
    t p d :
  session num_qubits eavesdropping_enabled t p d →
  length (valid_indices (correct_bits d))
  = length (matching_positions (alice_bases d) (bob_bases d)).
Proof.
  intros Hses. apply Permutation_length, NoDup_Permutation;
    auto using NoDup_valid_indices, NoDup_matching_positions.
  apply (valid_correct_bits_matching Hses).
Qed.

Lemma length_matching_positions_le (a b : list Z) :
  length (matching_positions a b) ≤ length a.
Proof.
  unfold matching_positions. rewrite <- (length_seq (length a) 0) at 2.
  apply length_filter.
Qed.

(** In a session the verdicts that are not blank stand at the disclosed
    positions. *)
Lemma session_verdicts num_qubits (eavesdropping_enabled : bool) t p d :
  session num_qubits eavesdropping_enabled t p d →
  Forall (λ c, c = "T"%char ∨ c = "F"%char ∨ c = " "%char) (confirmed_by_alice d)
  ∧ length (filter (λ c, c ≠ " "%char) (confirmed_by_alice d))
    = length (matching_positions (alice_bases d) (bob_bases d)) / 2.
Proof.
  intros Hses. split.
  - apply Forall_lookup. intros i c Hc.
    destruct (lookup_confirmed_by_alice Hses i c Hc) as (h & a & _ & _ & ->).
    apply verdict_cases.
  - rewrite <- (session_length_valid_matching _ _ _ _ _ Hses).
    rewrite <- (length_disclosed Hses), length_valid_indices. symmetry.
    apply length_filter_Forall2, Forall2_same_length_lookup. split.
    + by rewrite (length_half_correct_bits Hses), (length_confirmed_by_alice Hses).
    + intros i h c Hh Hc.
      destruct (lookup_confirmed_by_alice Hses i c Hc) as (h' & a & Hh' & Ha & ->).
      assert (h' = h) as -> by congruence.
      rewrite (verdict_blank h a); [done|].
      by apply (alice_bits_binary Hses i).
Qed.

(** Alice gives a verdict "T" or "F" on exactly half (rounded down) of the
    matching positions, and leaves every other position blank. *)
Theorem verdict_counts (num_qubits : Z) (eavesdropping_enabled : bool)
    (t : tape) (p : nat) :
  (0 < num_qubits)%Z →
  ∃ d p',
    collect_data num_qubits eavesdropping_enabled t p = Ok (d, p')
    ∧ let m := length (matching_positions (alice_bases d) (bob_bases d)) in
      py_count "T" (confirmed_by_alice d) + py_count "F" (confirmed_by_alice d)
      = m / 2
      ∧ py_count " " (confirmed_by_alice d) = Z.to_nat num_qubits - m / 2.
Proof.
  intros Hpos.
  destruct (collect_data_session num_qubits eavesdropping_enabled t p Hpos)
    as (d & p' & Hrun & Hses).
  exists d, p'. split; [done|]. cbv zeta.
  destruct (session_verdicts _ _ _ _ _ Hses) as [Hall Hlen].
  split; [by rewrite count_verdicts|].
  pose proof (length_filter_complement (λ c, c = " "%char) (confirmed_by_alice d))
    as Hsum.
  rewrite (length_confirmed_by_alice Hses) in Hsum. unfold py_count. lia.
Qed.

Lemma ratio_half_bound (c : nat) (num_qubits : Z) :
  (0 < num_qubits)%Z → (2 * Z.of_nat c ≤ num_qubits)%Z →
  (inject_Z (Z.of_nat c) / inject_Z num_qubits * 100 <= 50)%Q.
Proof.
  intros Hpos Hle. destruct num_qubits as [|q|q]; [lia| |lia].
  unfold Qle, Qdiv, Qmult, Qinv, inject_Z. simpl. lia.
Qed.

(** The eavesdropping ratio never exceeds 50: discrepancies are counted
    among the disclosed half of the matching positions only, and divided by
    the number of all qubits. *)
Theorem eavesdropping_ratio_at_most_50 (num_qubits : Z)
    (eavesdropping_enabled : bool) (t : tape) (p : nat) :
  (0 < num_qubits)%Z →
  ∃ d p',
    collect_data num_qubits eavesdropping_enabled t p = Ok (d, p')
    ∧ py_count "F" (confirmed_by_alice d)
      ≤ length (matching_positions (alice_bases d) (bob_bases d)) / 2
    ∧ (eavesdropping_ratio d <= 50)%Q.
Proof.
  intros Hpos.
  destruct (collect_data_session num_qubits eavesdropping_enabled t p Hpos)
    as (d & p' & Hrun & Hses).
  exists d, p'. split; [done|].
  destruct (session_verdicts _ _ _ _ _ Hses) as [Hall Hlen].
  pose proof (count_verdicts _ Hall) as Hsum. rewrite Hlen in Hsum.
  split; [lia|].
  destruct (session_ratio _ _ _ _ _ Hses) as [_ ->].
  apply ratio_half_bound; [done|].
  pose proof (length_matching_positions_le (alice_bases d) (bob_bases d)) as Hm.
  rewrite (length_alice_bases Hses) in Hm.
  pose proof (Nat.Div0.mul_div_le
    (length (matching_positions (alice_bases d) (bob_bases d))) 2). lia.
Qed.

(** ** Reports and the keys *)

Lemma Forall2_common {A : Type} (P Q : nat → A → Prop) (l : list nat) (k : list A) :
  Forall2 P l k → Forall2 Q l k → ∀ i, i ∈ l → ∃ x, P i x ∧ Q i x.
Proof.
  intros HP. induction HP as [|i x l k Hx _ IH]; intros HQ j Hj.
  - by apply elem_of_nil in Hj.
  - inversion HQ as [|? ? ? ? Hx' HQ']; subst.
    apply elem_of_cons in Hj as [->|Hj]; [by exists x|by apply IH].
Qed.

(** A session whose sifted keys agree has ratio 0 and is not reported,
    with or without Eve: a report always comes with keys that differ. *)
Theorem agreeing_keys_not_reported (num_qubits : Z)
    (eavesdropping_enabled : bool) (t : tape) (p : nat) :
  (0 < num_qubits)%Z →
  ∃ d p',
    collect_data num_qubits eavesdropping_enabled t p = Ok (d, p')
    ∧ (alice_shared_key d = bob_shared_key d →
       (eavesdropping_ratio d == 0)%Q)
    ∧ (Qpositive (eavesdropping_ratio d) = true →
       alice_shared_key d ≠ bob_shared_key d).
Proof.
  intros Hpos.
  destruct (collect_data_session num_qubits eavesdropping_enabled t p Hpos)
    as (d & p' & Hrun & Hses).
  exists d, p'. split; [done|].
  assert (alice_shared_key d = bob_shared_key d →
          (eavesdropping_ratio d == 0)%Q
          ∧ Qpositive (eavesdropping_ratio d) = false) as Hzero.
  { intros Heq. destruct (sifted_keys Hses) as [Ha Hb]. rewrite Heq in Ha.
    destruct (session_ratio _ _ _ _ _ Hses) as [_ ->].
    rewrite (no_discrepancy Hses); [apply ratio_zero|].
    intros i [Hin _]%(disclosed_valid Hses).
    apply (valid_correct_bits_matching Hses) in Hin.
    destruct (Forall2_common _ _ _ _ Ha Hb i Hin) as (x & Hx & Hx').
    congruence. }
  split; [by intros Heq; apply Hzero|].
  intros Hrep Heq. destruct (Hzero Heq) as [_ Hno]. congruence.
Qed.

(** ** The residual outcome *)

Lemma session_length_residual num_qubits (eavesdropping_enabled : bool) t p d :
  session num_qubits eavesdropping_enabled t p d →
  length (valid_indices (half_correct_bits d))
  + length (valid_indices (outcome d))
  = length (matching_positions (alice_bases d) (bob_bases d)).
Proof.
  intros Hses. rewrite <- (session_length_valid_matching _ _ _ _ _ Hses).
  rewrite <- length_app. apply Permutation_length, NoDup_Permutation.
  - apply NoDup_app. split_and!; [apply NoDup_valid_indices| |
                                  apply NoDup_valid_indices].
    intros i Hd [_ Hnd]%(residual_iff Hses). done.
  - apply NoDup_valid_indices.
  - intros i. rewrite elem_of_app. split.
    + intros [[Hv _]%(disclosed_valid Hses)|[Hv _]%(residual_iff Hses)]; done.
    + intros Hv.
      destruct (decide (i ∈ valid_indices (half_correct_bits d))) as [?|Hnd];
        [by left|].
      right. by apply (residual_iff Hses).
Qed.

(** The residual outcome keeps the other half (rounded up) of the matching
    positions; with eavesdropping disabled the bits it holds, which are
    Bob's, are Alice's bits at those positions. *)
Theorem residual_outcome_is_shared (num_qubits : Z)
    (eavesdropping_enabled : bool) (t : tape) (p : nat) :
  (0 < num_qubits)%Z →
  ∃ d p',
    collect_data num_qubits eavesdropping_enabled t p = Ok (d, p')
    ∧ let m := length (matching_positions (alice_bases d) (bob_bases d)) in
      length (valid_indices (outcome d)) = m - m / 2
      ∧ (eavesdropping_enabled = false →
         ∀ i, i ∈ valid_indices (outcome d) →
              outcome d !! i = alice_bits d !! i).
Proof.
  intros Hpos.
  destruct (collect_data_session num_qubits eavesdropping_enabled t p Hpos)
    as (d & p' & Hrun & Hses).
  exists d, p'. split; [done|]. cbv zeta. split.
  - pose proof (session_length_residual _ _ _ _ _ Hses) as Hsum.
    rewrite (length_disclosed Hses),
      (session_length_valid_matching _ _ _ _ _ Hses) in Hsum. lia.
  - intros -> i Hi. rewrite (residual_bits Hses i Hi).
    apply (residual_iff Hses) in Hi as [Hv _].
    rewrite (valid_correct_bits_bob Hses i Hv).
    apply (undisturbed_matching Hses).
    + by apply (valid_correct_bits_matching Hses).
    + intros eb. by rewrite (ses_eve_bases _ _ _ _ _ Hses).
Qed.

(** ** Interception and measurement on arbitrary inputs *)

Lemma bind_ext_l {A B : Type} (m m' : M A) (k : A → M B) t p :
  m t p = m' t p → bind m k t p = bind m' k t p.
Proof. unfold bind. by intros ->. Qed.

Lemma for_enumerate_ext {A B : Type} (f : nat → A → M B) (t : tape)
    (l l' : list A) :
  ∀ i0 p,
    length l = length l' →
    (∀ j a a' p', l !! j = Some a → l' !! j = Some a' →
                  f (i0 + j) a t p' = f (i0 + j) a' t p') →
    for_enumerate f i0 l t p = for_enumerate f i0 l' t p.
Proof.
  revert l'. induction l as [|a l IH]; intros [|a' l'] i0 p Hlen Hf; try done.
  simpl. unfold bind at 1 3.
  pose proof (Hf 0 a a' p eq_refl eq_refl) as H0. rewrite Nat.add_0_r in H0.
  rewrite H0. destruct (f i0 a' t p) as [[b p1]|e]; [|done].
  apply bind_ext_l, IH; [by injection Hlen|].
  intros j x x' p' Hx Hx'. rewrite Nat.add_succ_comm. by apply (Hf (S j)).
Qed.

Lemma for_enumerate_Err {A B : Type} (f : nat → A → M B) (c : nat) (e : exn)
    (t : tape) (k : nat) :
  ∀ (l : list A) i0 p a,
    l !! k = Some a →
    (∀ j a' p', j < k → l !! j = Some a' →
                ∃ b, f (i0 + j) a' t p' = Ok (b, p' + c)) →
    (∀ p', f (i0 + k) a t p' = Err e) →
    for_enumerate f i0 l t p = Err e.
Proof.
  induction k as [|k IH]; intros [|x l] i0 p a Ha Hok Herr; try done; simpl in *.
  - injection Ha as ->. apply bind_Err. by rewrite <- (Nat.add_0_r i0).
  - destruct (Hok 0 x p) as [b Hb]; [lia|done|]. rewrite Nat.add_0_r in Hb.
    rewrite (bind_Ok _ _ _ _ _ _ Hb). apply bind_Err.
    apply (IH l (S i0) (p + c) a Ha).
    + intros j a' p' Hj Ha'. rewrite Nat.add_succ_comm. apply Hok; [lia|done].
    + intros p'. rewrite Nat.add_succ_comm. apply Herr.
Qed.

(** Whatever Eve resends, Bob reads her bit when he measures in her basis:
    at such a position the circuit she sent is the one that prepares the
    bit Bob obtains in that basis. *)
Theorem bob_reads_eves_bit (circuits : list QuantumCircuit) (num_qubits : Z)
    (t : tape) (p : nat) :
  (0 ≤ num_qubits)%Z → length circuits = Z.to_nat num_qubits →
  ∃ eve_bases tampered p1 bob_bases bob_bits p2,
    eve_intercepts circuits num_qubits t p = Ok ((eve_bases, tampered), p1)
    ∧ bob_measures tampered num_qubits t p1 = Ok ((bob_bases, bob_bits), p2)
    ∧ ∀ i e v, eve_bases !! i = Some e → bob_bases !! i = Some e →
               bob_bits !! i = Some v →
               tampered !! i = Some (prepare_one v e).
Proof.
  intros Hpos Hlen.
  destruct (eve_intercepts_spec circuits num_qubits t p Hpos Hlen)
    as (tampered & Heve & Hlen' & Hres).
  destruct (bob_measures_spec tampered num_qubits t
              (p + Z.to_nat num_qubits + shots * Z.to_nat num_qubits) Hpos Hlen')
    as (bob_bits & Hbob & Hlenb & Hrecv).
  eexists _, tampered, _, _, bob_bits, _. split_and!; [done..|].
  intros i e v He Hb Hv.
  destruct (lookup_lt_is_Some_2 circuits i) as [qc Hqc].
  { apply lookup_lt_Some in Hv. lia. }
  destruct (Hres i qc Hqc) as (qc' & Hqc' & e' & m & He' & Hbe & Hbm & -> & _).
  assert (e' = e) as -> by congruence.
  destruct (Hrecv i _ Hqc') as (v' & Hv' & _ & Hsame).
  assert (v' = v) as -> by congruence.
  by rewrite Hqc', (Hsame m e Hbm Hbe eq_refl Hb).
Qed.

(** Alice's bit at a position that Eve measures in the wrong basis does not
    reach Eve: two transmissions that differ only at such positions give
    Eve the same readings and make her resend the same circuits. *)
Theorem wrong_basis_hides_alice_bit (num_qubits : Z) (bits bits' bases : list Z)
    (t : tape) (p : nat) :
  (0 ≤ num_qubits)%Z →
  length bits = Z.to_nat num_qubits → length bits' = Z.to_nat num_qubits →
  length bases = Z.to_nat num_qubits →
  Forall binary bits → Forall binary bits' → Forall binary bases →
  (∀ i, bits !! i ≠ bits' !! i →
        random_bits t p (Z.to_nat num_qubits) !! i ≠ bases !! i) →
  ∃ circuits circuits' eve_bases tampered p',
    prepare_qubits num_qubits bits bases = Ok circuits
    ∧ prepare_qubits num_qubits bits' bases = Ok circuits'
    ∧ eve_bases = random_bits t p (Z.to_nat num_qubits)
    ∧ eve_intercepts circuits num_qubits t p = Ok ((eve_bases, tampered), p')
    ∧ eve_intercepts circuits' num_qubits t p = Ok ((eve_bases, tampered), p').
Proof.
  intros Hpos Hbits Hbits' Hbases Hbin Hbin' Hbinb Hdiff.
  destruct (prepare_qubits_spec num_qubits bits bases Hbits Hbases)
    as (circuits & Hprep & Hlen & Hcirc).
  destruct (prepare_qubits_spec num_qubits bits' bases Hbits' Hbases)
    as (circuits' & Hprep' & Hlen' & Hcirc').
  destruct (eve_intercepts_spec circuits num_qubits t p Hpos Hlen)
    as (tampered & Heve & _).
  eexists circuits, circuits', _, tampered, _. split_and!; [done..|].
  rewrite <- Heve. unfold eve_intercepts.
  rewrite !(bind_Ok _ _ _ _ _ _ (np_random_randint_spec _ t p Hpos)).
  apply bind_ext_l, for_enumerate_ext; [lia|].
  intros j a' a p' Ha' Ha. simpl.
  assert (j < Z.to_nat num_qubits) as Hj by (apply lookup_lt_Some in Ha; lia).
  destruct (lookup_lt_is_Some_2 bits j) as [b Hb]; [lia|].
  destruct (lookup_lt_is_Some_2 bits' j) as [b' Hb']; [lia|].
  destruct (lookup_lt_is_Some_2 bases j) as [s Hs]; [lia|].
  rewrite (Hcirc j b s Hb Hs) in Ha. injection Ha as <-.
  rewrite (Hcirc' j b' s Hb' Hs) in Ha'. injection Ha' as <-.
  destruct (decide (b = b')) as [->|Hne]; [done|].
  pose proof (lookup_random_bits t p _ j Hj) as He.
  set (e := (t (p + j)%nat `mod` 2)%Z) in He.
  unfold bind, lift, index. rewrite He.
  fold (measured_circuit b' s e). fold (measured_circuit b s e).
  rewrite (measure_mismatched_independent b' b s e t p'); [done|..].
  - by apply (proj1 (Forall_lookup _ _) Hbin' j).
  - by apply (proj1 (Forall_lookup _ _) Hbin j).
  - by apply (proj1 (Forall_lookup _ _) Hbinb j).
  - apply binary_mod2.
  - intros ->. apply (Hdiff j); congruence.
Qed.

(** Bob returns one bit per circuit he is handed, whatever gates the
    circuits hold, as long as there are no more circuits than [num_qubits];
    handed more, he and Eve run out of bases and raise an IndexError. *)
Theorem measuring_and_the_number_of_bases (circuits : list QuantumCircuit)
    (num_qubits : Z) (t : tape) (p : nat) :
  (0 ≤ num_qubits)%Z →
  (length circuits ≤ Z.to_nat num_qubits →
   ∃ bob_bases bob_bits p',
     bob_measures circuits num_qubits t p = Ok ((bob_bases, bob_bits), p')
     ∧ length bob_bases = Z.to_nat num_qubits
     ∧ length bob_bits = length circuits
     ∧ Forall binary bob_bits)
  ∧ (Z.to_nat num_qubits < length circuits →
     bob_measures circuits num_qubits t p = Err IndexError
     ∧ eve_intercepts circuits num_qubits t p = Err IndexError).
Proof.
  intros Hpos. split.
  - intros Hle. unfold bob_measures.
    rewrite (bind_Ok _ _ _ _ _ _ (np_random_randint_spec _ t p Hpos)).
    edestruct (for_enumerate_spec
      (λ i qc,
        bob_basis <- lift (index (random_bits t p (Z.to_nat num_qubits)) i) ;;
        let qc := if (bob_basis =? 1)%Z then qc ++ [H] else qc in
        measure_and_read qc)
      (λ _ _ v, binary v) shots t circuits 0 (p + Z.to_nat num_qubits))
      as (bits & Hrun & Hlen & Hall).
    { intros j qc p' Hqc. simpl.
      assert (j < Z.to_nat num_qubits) as Hj
        by (apply lookup_lt_Some in Hqc; lia).
      rewrite (bind_Ok _ _ _ _ _ _
        (lift_Ok _ _ t p' (index_Ok _ _ _ (lookup_random_bits t p _ j Hj)))).
      apply measure_and_read_total. }
    rewrite (bind_Ok _ _ _ _ _ _ Hrun). unfold ret.
    eexists _, bits, _. split_and!; [done|apply length_random_bits|done|].
    apply Forall_lookup. intros i v Hv.
    destruct (lookup_lt_is_Some_2 circuits i) as [qc Hqc].
    { apply lookup_lt_Some in Hv. lia. }
    destruct (Hall i qc Hqc) as (v' & Hv' & Hbin). congruence.
  - intros Hlt.
    destruct (lookup_lt_is_Some_2 circuits (Z.to_nat num_qubits) Hlt) as [qc Hqc].
    split.
    + unfold bob_measures.
      rewrite (bind_Ok _ _ _ _ _ _ (np_random_randint_spec _ t p Hpos)).
      apply bind_Err.
      apply (for_enumerate_Err _ shots IndexError t (Z.to_nat num_qubits)
               circuits 0 _ qc Hqc).
      * intros j qc' p' Hj _. simpl.
        rewrite (bind_Ok _ _ _ _ _ _
          (lift_Ok _ _ t p' (index_Ok _ _ _ (lookup_random_bits t p _ j Hj)))).
        destruct (measure_and_read_total
                    (if (t (p + j)%nat `mod` 2 =? 1)%Z then qc' ++ [H] else qc')
                    t p') as (v & Hv & _).
        by exists v.
      * intros p'. simpl. apply bind_Err. unfold lift.
        by rewrite index_Err by by rewrite length_random_bits.
    + unfold eve_intercepts.
      rewrite (bind_Ok _ _ _ _ _ _ (np_random_randint_spec _ t p Hpos)).
      apply bind_Err.
      apply (for_enumerate_Err _ shots IndexError t (Z.to_nat num_qubits)
               circuits 0 _ qc Hqc).
      * intros j qc' p' Hj _. simpl.
        rewrite (bind_Ok _ _ _ _ _ _
          (lift_Ok _ _ t p' (index_Ok _ _ _ (lookup_random_bits t p _ j Hj)))).
        destruct (measure_and_read_total
                    (if (t (p + j)%nat `mod` 2 =? 1)%Z then qc' ++ [H] else qc')
                    t p') as (v & Hv & _).
        rewrite (bind_Ok _ _ _ _ _ _ Hv). by eexists.
      * intros p'. simpl. apply bind_Err. unfold lift.
        by rewrite index_Err by by rewrite length_random_bits.
Qed.

(** ** Preparation and the constant [num_qubits] *)

Lemma rmapM_Err {A B : Type} (f : A → result B) (e : exn) (l : list A) :
  (∀ a, a ∈ l → (∃ b, f a = Ok b) ∨ f a = Err e) →
  (∃ a, a ∈ l ∧ f a = Err e) →
  rmapM f l = Err e.
Proof.
  induction l as [|a l IH]; intros Hall (x & Hx & Hfx).
  - by apply elem_of_nil in Hx.
  - simpl. destruct (Hall a) as [[b Hb]|Ha]; [apply list_elem_of_here| |by rewrite Ha].
    rewrite Hb. simpl. rewrite IH; [done| |].
    + intros a' Ha'. apply Hall. by apply list_elem_of_further.
    + apply elem_of_cons in Hx as [->|Hx]; [congruence|by exists x].
Qed.

(** [prepare_qubits] builds [num_qubits] circuits from the first
    [num_qubits] entries of its two arrays, whatever their length beyond
    that; an array with fewer entries makes it raise an IndexError. *)
Theorem prepare_qubits_reads_num_qubits_entries (num_qubits : Z)
    (bits bases : list Z) :
  prepare_qubits num_qubits bits bases
  = if decide (Z.to_nat num_qubits ≤ length bits
               ∧ Z.to_nat num_qubits ≤ length bases)
    then Ok (zip_with prepare_one (take (Z.to_nat num_qubits) bits)
                                  (take (Z.to_nat num_qubits) bases))
    else Err IndexError.
Proof.
  unfold prepare_qubits. destruct (decide _) as [[Hbits Hbases]|Hshort].
  - rewrite (rmapM_Ok _
      (λ i, prepare_one (default 0%Z (bits !! i)) (default 0%Z (bases !! i)))).
    + f_equal. apply list_eq. intros i.
      rewrite list_lookup_fmap, lookup_zip_with.
      destruct (decide (i < Z.to_nat num_qubits)) as [Hi|Hi].
      * rewrite lookup_seq_lt, !lookup_take_lt by done. simpl.
        destruct (lookup_lt_is_Some_2 bits i) as [b ->]; [lia|].
        by destruct (lookup_lt_is_Some_2 bases i) as [s ->]; [lia|].
      * by rewrite lookup_seq_ge, !lookup_take_ge by lia.
    + intros i [_ Hi]%elem_of_seq. simpl in Hi.
      destruct (lookup_lt_is_Some_2 bits i) as [b Hb]; [lia|].
      destruct (lookup_lt_is_Some_2 bases i) as [s Hs]; [lia|].
      by rewrite (index_Ok _ _ _ Hb), (index_Ok _ _ _ Hs), Hb, Hs.
  - apply rmapM_Err.
    + intros i _. unfold index.
      destruct (bits !! i); [|by right]. destruct (bases !! i); [|by right].
      left. by eexists.
    + exists (length bits `min` length bases). split.
      * apply elem_of_seq. lia.
      * unfold index.
        destruct (bits !! _) as [b|] eqn:Hb; [|done]. simpl.
        destruct (bases !! _) as [s|] eqn:Hs; [|done].
        apply lookup_lt_Some in Hb, Hs. lia.
Qed.

(** ** The harness on every input *)

(** On a positive [num_qubits] the harness records each trial in exactly one
    cell: the four cells of its table add up to the number of trials. *)
Theorem run_tests_counts_every_trial (num_qubits num_tests : Z)
    (t : tape) (p : nat) :
  (0 < num_qubits)%Z →
  ∃ r p', run_tests num_qubits num_tests t p = Ok (r, p')
          ∧ true_detected r + true_non_detected r
            + false_detected r + false_non_detected r
            = Z.to_nat num_tests.
Proof.
  intros Hpos. unfold run_tests.
  destruct (run_tests_loop_spec num_qubits (Z.to_nat num_tests) Hpos
              {| true_detected := 0; true_non_detected := 0;
                 false_detected := 0; false_non_detected := 0 |} t p)
    as (r & p' & Hrun & Htotal & _).
  exists r, p'. split; [done|]. by unfold total in Htotal.
Qed.

(** A session that fails makes the harness fail with the same exception:
    with a non-positive [num_qubits] the first trial already ends the run. *)
Theorem run_tests_propagates_failure (num_qubits num_tests : Z)
    (t : tape) (p : nat) :
  (num_qubits ≤ 0)%Z → (0 < num_tests)%Z →
  run_tests num_qubits num_tests t p
  = Err (if (num_qubits <? 0)%Z then ValueError else ZeroDivisionError).
Proof.
  intros Hq Htests. unfold run_tests.
  destruct (Z.to_nat num_tests) as [|k] eqn:Hk; [lia|]. simpl.
  destruct (np_random_choice1_flag t p) as [flag Hflag].
  rewrite (bind_Ok _ _ _ _ _ _ Hflag). apply bind_Err.
  destruct (Z.ltb_spec num_qubits 0) as [Hneg|Hzero].
  - by apply collect_data_negative.
  - assert (num_qubits = 0%Z) as -> by lia. apply collect_data_zero.
Qed.

(** ** The post-processing steps on arbitrary arrays *)

Lemma rmapM_enumerate_Err {A B : Type} (f : nat * A → result B) (e : exn)
    (l : list A) :
  (∀ i a, l !! i = Some a → (∃ b, f (i, a) = Ok b) ∨ f (i, a) = Err e) →
  (∃ i a, l !! i = Some a ∧ f (i, a) = Err e) →
  rmapM f (enumerate l) = Err e.
Proof.
  intros Hall (i & a & Ha & Hf). apply rmapM_Err.
  - intros [j x] Hx%elem_of_enumerate. by apply Hall.
  - exists (i, a). split; [by apply elem_of_enumerate|done].
Qed.

(** [confirm_by_alice] gives one verdict per entry of the disclosed half
    and needs Alice's array to be at least as long; [create_outcome] gives
    one entry per correct bit and needs the disclosed half to be at least
    as long.  Otherwise each raises an IndexError. *)
Theorem verdicts_and_outcome_bounds (alice_bits correct_bits half : list Z) :
  confirm_by_alice alice_bits half
  = (if decide (length half ≤ length alice_bits)
     then Ok (zip_with verdict half alice_bits)
     else Err IndexError)
  ∧ create_outcome correct_bits half
    = (if decide (length correct_bits ≤ length half)
       then Ok (zip_with (λ bit h, if (h =? -1)%Z then bit else (-1)%Z)
                         correct_bits half)
       else Err IndexError).
Proof.
  split.
  - unfold confirm_by_alice. destruct (decide _) as [Hle|Hgt].
    + destruct (rmapM_enumerate_spec
        (λ ib : nat * Z,
           alice_bit <~ index alice_bits ib.1 ;;
           Ok (if (ib.2 =? alice_bit)%Z then "T"%char
               else if negb (ib.2 =? -1)%Z then "F"%char else " "%char))
        (λ i h, verdict h (default 0%Z (alice_bits !! i))) half)
        as (out & -> & Hlen & Hall).
      { intros i h Hh. simpl.
        destruct (lookup_lt_is_Some_2 alice_bits i) as [a Ha].
        { apply lookup_lt_Some in Hh. lia. }
        by rewrite (index_Ok _ _ _ Ha), Ha. }
      f_equal. apply list_eq. intros i. rewrite lookup_zip_with.
      destruct (half !! i) as [h|] eqn:Hh; simpl.
      * rewrite (Hall i h Hh).
        destruct (lookup_lt_is_Some_2 alice_bits i) as [a ->]; [|done].
        apply lookup_lt_Some in Hh. lia.
      * apply lookup_ge_None. apply lookup_ge_None in Hh. lia.
    + apply rmapM_enumerate_Err.
      * intros i h _. simpl. unfold index.
        destruct (alice_bits !! i); [left; by eexists|by right].
      * destruct (lookup_lt_is_Some_2 half (length alice_bits)) as [h Hh]; [lia|].
        exists (length alice_bits), h. split; [done|]. simpl.
        by rewrite index_Err.
  - unfold create_outcome. destruct (decide _) as [Hle|Hgt].
    + destruct (rmapM_enumerate_spec
        (λ ib : nat * Z,
           half <~ index half ib.1 ;;
           Ok (if (half =? -1)%Z then ib.2 else (-1)%Z))
        (λ i b, if (default 0%Z (half !! i) =? -1)%Z then b else (-1)%Z)
        correct_bits)
        as (out & -> & Hlen & Hall).
      { intros i b Hb. simpl.
        destruct (lookup_lt_is_Some_2 half i) as [h Hh].
        { apply lookup_lt_Some in Hb. lia. }
        by rewrite (index_Ok _ _ _ Hh), Hh. }
      f_equal. apply list_eq. intros i. rewrite lookup_zip_with.
      destruct (correct_bits !! i) as [b|] eqn:Hb; simpl.
      * rewrite (Hall i b Hb).
        destruct (lookup_lt_is_Some_2 half i) as [h ->]; [|done].
        apply lookup_lt_Some in Hb. lia.
      * apply lookup_ge_None. apply lookup_ge_None in Hb. lia.
    + apply rmapM_enumerate_Err.
      * intros i b _. simpl. unfold index.
        destruct (half !! i); [left; by eexists|by right].
      * destruct (lookup_lt_is_Some_2 correct_bits (length half)) as [b Hb];
          [lia|].
        exists (length half), b. split; [done|]. simpl.
        by rewrite index_Err.
Qed.

(** The sampling step never raises, whatever array it is given: it returns
    an array of the same length whose entries are the sentinel or the
    entry of the input, and it keeps half (rounded down) of the entries
    that are not the sentinel. *)
Theorem randomly_store_half_never_raises (correct_bits : list Z)
    (t : tape) (p : nat) :
  ∃ half p',
    randomly_store_half correct_bits t p = Ok (half, p')
    ∧ length half = length correct_bits
    ∧ length (valid_indices half) = length (valid_indices correct_bits) / 2
    ∧ ∀ i h, half !! i = Some h →
             h = (-1)%Z ∨ correct_bits !! i = Some h.
Proof.
  destruct (randomly_store_half_spec correct_bits t p)
    as (selected & half & Hrun & Hsel & Hlen & Hlook).
  exists half, (p + length (valid_indices correct_bits)).
  split_and!; [done..| |].
  - by apply length_valid_indices_half with selected.
  - intros i h Hh. rewrite Hlook in Hh.
    destruct (decide (i ∈ selected)); [by right|].
    left. by apply lookup_replicate in Hh as [-> _].
Qed.

(** With Eve on the line, Bob still holds Alice's bit at every matching
    position at which Eve happened to measure in Alice's basis. *)
Theorem interception_in_alice_basis_is_invisible (num_qubits : Z)
    (t : tape) (p : nat) :
  (0 < num_qubits)%Z →
  ∃ d p' eb,
    collect_data num_qubits true t p = Ok (d, p')
    ∧ eve_bases d = Some eb
    ∧ ∀ i, i ∈ matching_positions (alice_bases d) (bob_bases d) →
           eb !! i = alice_bases d !! i →
           bob_bits d !! i = alice_bits d !! i.
Proof.
  intros Hpos.
  destruct (collect_data_session num_qubits true t p Hpos)
    as (d & p' & Hrun & Hses).
  pose proof (ses_eve_bases _ _ _ _ _ Hses) as Heve. simpl in Heve.
  eexists d, p', _. split_and!; [done..|].
  intros i Hi Heq. apply (undisturbed_matching Hses i Hi).
  intros eb. rewrite Heve. by intros [= <-].
Qed.

(** ** Instances of the further properties *)


Lemma correct_bases_mark_matching_witness :
  (0 < 4)%Z
  ∧ ∃ d p',
      collect_data 4 false (tape_of_list [1; 0; 1; 1; 0; 1; 0; 1; 0; 1; 1; 1]%Z) 0
      = Ok (d, p')
      ∧ ∀ i, i < Z.to_nat 4 →
             correct_bases d !! i
             = Some (if decide (i ∈ matching_positions (alice_bases d) (bob_bases d))
                     then "K"%char else " "%char).
Proof.
  split; [reflexivity|].
  apply (correct_bases_mark_matching 4 false
           (tape_of_list [1; 0; 1; 1; 0; 1; 0; 1; 0; 1; 1; 1]%Z) 0).
  reflexivity.
Defined.

Lemma correct_bits_hold_bob_key_witness :
  (0 < 4)%Z
  ∧ ∃ d p',
      collect_data 4 true (tape_of_list [1; 0; 1; 1; 0; 1; 0; 1; 1; 1; 0; 0]%Z) 0
      = Ok (d, p')
      ∧ filter (λ v, v ≠ (-1)%Z) (correct_bits d) = bob_shared_key d.
Proof.
  split; [reflexivity|].
  apply (correct_bits_hold_bob_key 4 true
           (tape_of_list [1; 0; 1; 1; 0; 1; 0; 1; 1; 1; 0; 0]%Z) 0).
  reflexivity.
Defined.

Lemma verdict_counts_witness :
  (0 < 4)%Z
  ∧ ∃ d p',
      collect_data 4 true (tape_of_list [1; 0; 1; 1; 0; 1; 0; 1; 1; 1; 0; 0]%Z) 0
      = Ok (d, p')
      ∧ let m := length (matching_positions (alice_bases d) (bob_bases d)) in
        py_count "T" (confirmed_by_alice d) + py_count "F" (confirmed_by_alice d)
        = m / 2
        ∧ py_count " " (confirmed_by_alice d) = Z.to_nat 4 - m / 2.
Proof.
  split; [reflexivity|].
  apply (verdict_counts 4 true
           (tape_of_list [1; 0; 1; 1; 0; 1; 0; 1; 1; 1; 0; 0]%Z) 0).
  reflexivity.
Defined.

Lemma eavesdropping_ratio_at_most_50_witness :
  (0 < 4)%Z
  ∧ ∃ d p',
      collect_data 4 true (tape_of_list [1; 0; 1; 1; 0; 1; 0; 1; 1; 1; 0; 0]%Z) 0
      = Ok (d, p')
      ∧ py_count "F" (confirmed_by_alice d)
        ≤ length (matching_positions (alice_bases d) (bob_bases d)) / 2
      ∧ (eavesdropping_ratio d <= 50)%Q.
Proof.
  split; [reflexivity|].
  apply (eavesdropping_ratio_at_most_50 4 true
           (tape_of_list [1; 0; 1; 1; 0; 1; 0; 1; 1; 1; 0; 0]%Z) 0).
  reflexivity.
Defined.

Lemma agreeing_keys_not_reported_witness :
  (0 < 4)%Z
  ∧ ∃ d p',
      collect_data 4 true lucky_tape 0 = Ok (d, p')
      ∧ (alice_shared_key d = bob_shared_key d →
         (eavesdropping_ratio d == 0)%Q)
      ∧ (Qpositive (eavesdropping_ratio d) = true →
         alice_shared_key d ≠ bob_shared_key d).
Proof.
  split; [reflexivity|].
  apply (agreeing_keys_not_reported 4 true lucky_tape 0). reflexivity.
Defined.

Lemma residual_outcome_is_shared_witness :
  (0 < 4)%Z
  ∧ ∃ d p',
      collect_data 4 false (tape_of_list [1; 0; 1; 1; 0; 1; 0; 1; 0; 1; 1; 1]%Z) 0
      = Ok (d, p')
      ∧ let m := length (matching_positions (alice_bases d) (bob_bases d)) in
        length (valid_indices (outcome d)) = m - m / 2
        ∧ (false = false →
           ∀ i, i ∈ valid_indices (outcome d) →
                outcome d !! i = alice_bits d !! i).
Proof.
  split; [reflexivity|].
  apply (residual_outcome_is_shared 4 false
           (tape_of_list [1; 0; 1; 1; 0; 1; 0; 1; 0; 1; 1; 1]%Z) 0).
  reflexivity.
Defined.

Lemma bob_reads_eves_bit_witness :
  (0 ≤ 2)%Z ∧ length [[X]; [H]] = Z.to_nat 2
  ∧ ∃ eve_bases tampered p1 bob_bases bob_bits p2,
      eve_intercepts [[X]; [H]] 2 (tape_of_list [1; 0]%Z) 0
      = Ok ((eve_bases, tampered), p1)
      ∧ bob_measures tampered 2 (tape_of_list [1; 0]%Z) p1
        = Ok ((bob_bases, bob_bits), p2)
      ∧ ∀ i e v, eve_bases !! i = Some e → bob_bases !! i = Some e →
                 bob_bits !! i = Some v →
                 tampered !! i = Some (prepare_one v e).
Proof.
  split; [lia|]. split; [reflexivity|].
  apply (bob_reads_eves_bit [[X]; [H]] 2 (tape_of_list [1; 0]%Z) 0);
    [lia|reflexivity].
Defined.

Lemma wrong_basis_hides_alice_bit_witness :
  ∃ circuits circuits' eve_bases tampered p',
    prepare_qubits 2 [1; 0]%Z [0; 1]%Z = Ok circuits
    ∧ prepare_qubits 2 [0; 0]%Z [0; 1]%Z = Ok circuits'
    ∧ eve_bases = random_bits (tape_of_list [1; 1]%Z) 0 (Z.to_nat 2)
    ∧ eve_intercepts circuits 2 (tape_of_list [1; 1]%Z) 0
      = Ok ((eve_bases, tampered), p')
    ∧ eve_intercepts circuits' 2 (tape_of_list [1; 1]%Z) 0
      = Ok ((eve_bases, tampered), p').
Proof.
  apply (wrong_basis_hides_alice_bit 2 [1; 0]%Z [0; 0]%Z [0; 1]%Z
           (tape_of_list [1; 1]%Z) 0).
  - lia.
  - reflexivity.
  - reflexivity.
  - reflexivity.
  - repeat (constructor; [first [by left|by right]|]). constructor.
  - repeat (constructor; [first [by left|by right]|]). constructor.
  - repeat (constructor; [first [by left|by right]|]). constructor.
  - intros [|[|i]] Hne; simpl in *; [discriminate|congruence|congruence].
Defined.

Lemma measuring_and_the_number_of_bases_witness :
  (0 ≤ 1)%Z
  ∧ (∃ bob_bases bob_bits p',
       bob_measures [[X; H; X]] 1 (tape_of_list [1]%Z) 0
       = Ok ((bob_bases, bob_bits), p')
       ∧ length bob_bases = Z.to_nat 1
       ∧ length bob_bits = length [[X; H; X]]
       ∧ Forall binary bob_bits)
  ∧ bob_measures [[X]; [H]] 1 (tape_of_list [1]%Z) 0 = Err IndexError
  ∧ eve_intercepts [[X]; [H]] 1 (tape_of_list [1]%Z) 0 = Err IndexError.
Proof.
  split; [lia|]. split.
  - apply (measuring_and_the_number_of_bases [[X; H; X]] 1 (tape_of_list [1]%Z) 0);
      [lia|simpl; lia].
  - apply (measuring_and_the_number_of_bases [[X]; [H]] 1 (tape_of_list [1]%Z) 0);
      [lia|simpl; lia].
Defined.

Lemma run_tests_counts_every_trial_witness :
  (0 < 4)%Z
  ∧ ∃ r p',
      run_tests 4 3 (tape_of_list [1; 0; 1; 1; 0; 1; 0; 1; 1; 1; 0; 0]%Z) 0
      = Ok (r, p')
      ∧ true_detected r + true_non_detected r
        + false_detected r + false_non_detected r
        = Z.to_nat 3.
Proof.
  split; [reflexivity|].
  apply (run_tests_counts_every_trial 4 3
           (tape_of_list [1; 0; 1; 1; 0; 1; 0; 1; 1; 1; 0; 0]%Z) 0).
  reflexivity.
Defined.

Lemma run_tests_propagates_failure_witness :
  (0 ≤ 0)%Z ∧ (0 < 2)%Z
  ∧ run_tests 0 2 (tape_of_list [1; 0]%Z) 0
    = Err (if (0 <? 0)%Z then ValueError else ZeroDivisionError).
Proof.
  split; [lia|]. split; [reflexivity|].
  apply (run_tests_propagates_failure 0 2 (tape_of_list [1; 0]%Z) 0);
    [lia|reflexivity].
Defined.

Lemma interception_in_alice_basis_is_invisible_witness :
  (0 < 4)%Z
  ∧ ∃ d p' eb,
      collect_data 4 true lucky_tape 0 = Ok (d, p')
      ∧ eve_bases d = Some eb
      ∧ ∀ i, i ∈ matching_positions (alice_bases d) (bob_bases d) →
             eb !! i = alice_bases d !! i →
             bob_bits d !! i = alice_bits d !! i.
Proof.
  split; [reflexivity|].
  apply (interception_in_alice_basis_is_invisible 4 lucky_tape 0). reflexivity.
Defined.
